(** * A shallow embedding of the gamepad report decoder

    The [Gamepad] class decodes raw HID reports into named events
    ("left:move", "fire:press", ...), driven by a declarative device
    definition.  This file embeds the class method by method and proves
    the behaviour of the frame decoder, the definition loader and the
    configuration resolver.

    Modelling conventions:
    - a [Buffer] is a list of bytes; [data[pin]] is [undefined] outside
      the buffer, which is [None] here;
    - JSON numbers that serve as identifiers, pins and byte values are
      integers ([Z]);
    - the state object [_states] is an ordinary object: its own
      properties are a finite map from names to values, and a name it
      does not own is looked up on its prototype, which is
      [Object.prototype] unless a write to ["__proto__"] has replaced it;
    - the event emitter is the list of emitted events, oldest first. *)

From Stdlib Require Import ZArith String Ascii List Lia.
From Stdlib.Strings Require Import Byte.
From stdpp Require Import base option strings list gmap.

(** ** JavaScript values held in the state object and carried by events *)

(** [IStickState]: both coordinates come from [data[pin]], so each may be
    [undefined]. *)
Record IStickState := mkStick { st_x : option Z; st_y : option Z }.

(** [VNum] is a number; [VObject] is an object of the runtime that is
    not a pair: a method of [Object.prototype], or [Object.prototype]
    itself.  All the code does with such an object is to test it and to
    read its [x] and [y], which it does not have. *)
Inductive jsval :=
| VUndef
| VStick (s : IStickState)
| VBool (b : bool)
| VStr (s : string)
| VNum (n : Z)
| VObject.

#[global] Instance IStickState_eq_dec : EqDecision IStickState.
Proof. solve_decision. Defined.

#[global] Instance jsval_eq_dec : EqDecision jsval.
Proof. solve_decision. Defined.

Module JS.

(** ToBoolean: objects are truthy, the empty string and 0 are falsy. *)
Definition truthy (v : jsval) : bool :=
  match v with
  | VUndef => false
  | VStick _ => true
  | VBool b => b
  | VStr s => negb (bool_decide (s = ""))
  | VNum n => negb (bool_decide (n = 0%Z))
  | VObject => true
  end.

(** [v.x] and [v.y]: only a stick object has these properties; on a
    boolean, a string, a number, a method or [Object.prototype] the
    property read gives [undefined]. *)
Definition prop_x (v : jsval) : option Z :=
  match v with VStick s => st_x s | _ => None end.

Definition prop_y (v : jsval) : option Z :=
  match v with VStick s => st_y s | _ => None end.

(** [a === b] where [b] is a boolean, a string or undefined, as in all
    the comparisons of the code.  An object or a number is never
    strictly equal to one of these. *)
Definition strict_eq (a b : jsval) : bool :=
  match a, b with
  | VUndef, VUndef => true
  | VBool x, VBool y => bool_decide (x = y)
  | VStr x, VStr y => bool_decide (x = y)
  | _, _ => false
  end.

(** [v & 0xFF] for [v] a byte read from a buffer or [undefined]
    (ToInt32 sends [undefined] to 0). *)
Definition and_ff (v : option Z) : Z := Z.land (default 0%Z v) 255.

(** ToBoolean on an optional number, as in [if (options.vendorID)]:
    [undefined] and 0 are falsy. *)
Definition truthy_number (v : option Z) : bool :=
  match v with
  | Some n => negb (bool_decide (n = 0%Z))
  | None => false
  end.

(** [s.indexOf(c) > -1] for a one-character needle. *)
Definition contains_char (c : ascii) (s : string) : bool :=
  match String.index 0 (String c EmptyString) s with
  | Some _ => true
  | None => false
  end.

(** [s.replace(pat, rep)] with a string pattern: only the first
    occurrence is replaced. *)
Fixpoint replace (pat rep s : string) : string :=
  if String.prefix pat s
  then rep +:+ String.substring (String.length pat)
                                (String.length s - String.length pat) s
  else match s with
       | EmptyString => EmptyString
       | String c s' => String c (replace pat rep s')
       end.

End JS.

(** ** Device definitions *)

Record IGamepadOptions := mkOptions {
  opt_vendorID : option Z;
  opt_productID : option Z
}.

Record IStickConfig := mkStickConfig {
  stick_name : string;
  x_pin : Z;
  y_pin : Z
}.

Record IButtonConfig := mkButtonConfig {
  button_value : Z;
  button_pin : Z;
  button_name : string
}.

Record IStatusState := mkStatusState {
  value : Z;
  state : string
}.

Record IStatusConfig := mkStatusConfig {
  status_pin : Z;
  status_name : string;
  states : list IStatusState
}.

Record IGamepadDefinition := mkDefinition {
  vendorID : Z;
  productID : Z;
  joysticks : option (list IStickConfig);
  buttons : option (list IButtonConfig);
  status : option (list IStatusConfig)
}.

#[global] Instance IStickConfig_eq_dec : EqDecision IStickConfig.
Proof. solve_decision. Defined.

#[global] Instance IButtonConfig_eq_dec : EqDecision IButtonConfig.
Proof. solve_decision. Defined.

#[global] Instance IStatusState_eq_dec : EqDecision IStatusState.
Proof. solve_decision. Defined.

#[global] Instance IStatusConfig_eq_dec : EqDecision IStatusConfig.
Proof. solve_decision. Defined.

(** ** Frames, state and events *)

Abbreviation Buffer := (list byte).

(** [data[pin]] *)
Definition data_at (data : Buffer) (pin : Z) : option Z :=
  if (pin <? 0)%Z then None
  else (fun b => Z.of_N (Byte.to_N b)) <$> data !! Z.to_nat pin.

(** *** The state object

    [this._states = {}] is an ordinary object.  [own] holds its own
    properties; an own property may hold [undefined].  [proto] tells what
    its prototype is: [None] for [Object.prototype], [Some p] for the
    pair object [p] (whose own prototype is [Object.prototype]), which
    is what a write of a pair to ["__proto__"] makes it.  Assignment
    never creates an own property called ["__proto__"], so [own] is not
    consulted for that name. *)
Record IGamepadState := mkState {
  own : gmap string jsval;
  proto : option IStickState
}.

#[global] Instance IGamepadState_eq_dec : EqDecision IGamepadState.
Proof. solve_decision. Defined.

(** [{}] *)
Definition fresh : IGamepadState := mkState ∅ None.

(** The methods every object inherits from [Object.prototype]. *)
Definition object_methods : list string :=
  ["constructor"; "toString"; "toLocaleString"; "valueOf";
   "hasOwnProperty"; "isPrototypeOf"; "propertyIsEnumerable";
   "__defineGetter__"; "__defineSetter__";
   "__lookupGetter__"; "__lookupSetter__"].

Definition from_object_prototype (name : string) : jsval :=
  if bool_decide (name ∈ object_methods) then VObject else VUndef.

(** A coordinate of a pair, read as a property. *)
Definition coordinate (c : option Z) : jsval :=
  match c with Some n => VNum n | None => VUndef end.

(** A name the object does not own, looked up along its prototype
    chain. *)
Definition inherited (st : IGamepadState) (name : string) : jsval :=
  match proto st with
  | Some p =>
      if bool_decide (name = "x") then coordinate (st_x p)
      else if bool_decide (name = "y") then coordinate (st_y p)
      else from_object_prototype name
  | None => from_object_prototype name
  end.

(** [this._states[name]].  ["__proto__"] is the accessor of
    [Object.prototype]: its getter returns the prototype. *)
Definition get (st : IGamepadState) (name : string) : jsval :=
  if bool_decide (name = "__proto__") then
    match proto st with Some p => VStick p | None => VObject end
  else
    match own st !! name with
    | Some v => v
    | None => inherited st name
    end.

(** [this._states[name] = v], for the values the code writes (pairs,
    booleans, strings and undefined).  An ordinary name becomes or stays
    an own property, whatever is inherited under it.  The setter of
    ["__proto__"] replaces the prototype when given an object and ignores
    anything else. *)
Definition put (st : IGamepadState) (name : string) (v : jsval)
  : IGamepadState :=
  if bool_decide (name = "__proto__") then
    match v with
    | VStick p => mkState (own st) (Some p)
    | _ => st
    end
  else mkState (<[name := v]> (own st)) (proto st).

(** The entry under [name] is the object's own: reading it does not
    depend on the prototype. *)
Definition anchored (st : IGamepadState) (name : string) : Prop :=
  name ≠ "__proto__" ∧ is_Some (own st !! name).

(** One call of [this.emit(name, ...args)]. *)
Record Event := mkEvent { ev_name : string; ev_args : list jsval }.

#[global] Instance Event_eq_dec : EqDecision Event.
Proof. solve_decision. Defined.

(** A callback run by [forEach]: it updates the state object and emits
    events. *)
Definition pass := IGamepadState -> IGamepadState * list Event.

(** [items.forEach(cb)], threading the state and collecting the events
    in emission order. *)
Fixpoint forEach {A} (cb : A -> pass) (items : list A) : pass :=
  fun st =>
    match items with
    | [] => (st, [])
    | a :: rest =>
        let '(st1, ev1) := cb a st in
        let '(st2, ev2) := forEach cb rest st1 in
        (st2, ev1 ++ ev2)
    end.

(** ** The frame decoder *)

Definition stick_cb (data : Buffer) (stick : IStickConfig) : pass :=
  fun st =>
    if negb (JS.truthy (get st (stick_name stick))) then
      (put st (stick_name stick)
           (VStick (mkStick (data_at data (x_pin stick))
                            (data_at data (y_pin stick)))), [])
    else
      let currentState := get st (stick_name stick) in
      if bool_decide (JS.prop_x currentState ≠ data_at data (x_pin stick))
         || bool_decide (JS.prop_y currentState ≠ data_at data (y_pin stick))
      then
        let currentState :=
          VStick (mkStick (data_at data (x_pin stick))
                          (data_at data (y_pin stick))) in
        (put st (stick_name stick) currentState,
         [mkEvent (stick_name stick +:+ ":move") [currentState]])
      else (st, []).

Definition processJoysticks (config : IGamepadDefinition) (data : Buffer)
  : pass :=
  fun st =>
    match joysticks config with
    | None => (st, [])
    | Some sticks => forEach (stick_cb data) sticks st
    end.

Definition button_cb (data : Buffer) (button : IButtonConfig) : pass :=
  fun st =>
    let isPressed :=
      bool_decide (JS.and_ff (data_at data (button_pin button))
                   = button_value button) in
    if bool_decide (get st (button_name button) = VUndef) then
      (put st (button_name button) (VBool isPressed),
       if isPressed then [mkEvent (button_name button +:+ ":press") []]
       else [])
    else
      let currentState := get st (button_name button) in
      let differs := negb (JS.strict_eq currentState (VBool isPressed)) in
      (put st (button_name button) (VBool isPressed),
       if isPressed && differs
       then [mkEvent (button_name button +:+ ":press") []]
       else if negb isPressed && differs
            then [mkEvent (button_name button +:+ ":release") []]
            else []).

Definition processButtons (config : IGamepadDefinition) (data : Buffer)
  : pass :=
  fun st =>
    match buttons config with
    | None => (st, [])
    | Some bs => forEach (button_cb data) bs st
    end.

(** The scan [for (let i = 0, length = states.length; i < length; i++)]
    with its [break]: [fuel] counts the iterations left, [i] is the loop
    index, and the result is [updatedState], [None] while unassigned. *)
Fixpoint scan_states (sts : list IStatusState) (byte : Z) (fuel i : nat)
  : option string :=
  match fuel with
  | O => None
  | S fuel' =>
      match sts !! i with
      | Some e =>
          if bool_decide (value e = byte) then Some (state e)
          else scan_states sts byte fuel' (S i)
      | None => None
      end
  end.

Definition resolve_label (sts : list IStatusState) (byte : Z)
  : option string :=
  scan_states sts byte (length sts) 0.

(** The value of a [string] variable that may still be unassigned. *)
Definition label_val (l : option string) : jsval :=
  match l with Some s => VStr s | None => VUndef end.

Definition status_cb (data : Buffer) (status : IStatusConfig) : pass :=
  fun st =>
    let state := JS.and_ff (data_at data (status_pin status)) in
    let updatedState := label_val (resolve_label (states status) state) in
    let currentState := get st (status_name status) in
    (put st (status_name status) updatedState,
     if negb (JS.strict_eq currentState updatedState)
     then [mkEvent (status_name status +:+ ":change") [updatedState]]
     else []).

Definition processStatus (config : IGamepadDefinition) (data : Buffer)
  : pass :=
  fun st =>
    match status config with
    | None => (st, [])
    | Some ss => forEach (status_cb data) ss st
    end.

Definition onControllerFrame (config : IGamepadDefinition) (data : Buffer)
  : pass :=
  fun st =>
    let '(st1, ev1) := processJoysticks config data st in
    let '(st2, ev2) := processButtons config data st1 in
    let '(st3, ev3) := processStatus config data st2 in
    (st3, ev1 ++ ev2 ++ ev3).

(** The decoder driven by a sequence of frames, starting from [st]; the
    result lists the events of each frame separately. *)
Fixpoint run (config : IGamepadDefinition) (frames : list Buffer)
  (st : IGamepadState) : IGamepadState * list (list Event) :=
  match frames with
  | [] => (st, [])
  | data :: rest =>
      let '(st1, ev) := onControllerFrame config data st in
      let '(st2, evs) := run config rest st1 in
      (st2, ev :: evs)
  end.

(** ** Definition files and attached devices

    The controller definitions live under [controllers/]: one directory
    per vendor, one JSON file per device.  [directories] is what
    [fs.existsSync] and [fs.readdirSync] see of a vendor directory (its
    file names in enumeration order); [definitions] holds the definition
    objects that [require] returns, keyed by their path below
    [controllers/].  [require] caches the object it returns, so a write to
    a loaded definition is a write to this store.  The store describes a
    well-formed [controllers/] tree: a vendor path that exists is a
    directory, a definition file that exists loads, and identifiers are
    plain path segments, on which [path.resolve] and [path.join] only
    concatenate, so that distinct identifiers name distinct files. *)

Record Storage := mkStorage {
  directories : gmap string (list string);
  definitions : gmap string IGamepadDefinition
}.

(** An entry of [HID.devices()]. *)
Record Device := mkDevice { vendorId : Z; productId : Z }.

(** The errors thrown while a gamepad connects, one constructor per
    message:
    - [ConfigurationNotFound t]: the vendor [t] does not exist;
    - [DeviceNotDetected t]: a product for the vendor [t] could not be
      detected;
    - [DefinitionNotFound t]: the controller configuration for [t] does
      not exist;
    - [ModuleNotFound p]: [require] found no module at [p]. *)
Inductive Error :=
| ConfigurationNotFound (type : string)
| DeviceNotDetected (type : string)
| DefinitionNotFound (type : string)
| ModuleNotFound (path : string).

#[global] Instance Error_eq_dec : EqDecision Error.
Proof. solve_decision. Defined.

Definition require (fs : Storage) (path : string)
  : Error + IGamepadDefinition :=
  match definitions fs !! path with
  | Some config => inr config
  | None => inl (ModuleNotFound path)
  end.

Definition hasProductId (type : string) : bool := JS.contains_char "/" type.

(** The inner loop over [devices]. *)
Fixpoint matches_device (tmpConfig : IGamepadDefinition)
  (devices : list Device) : bool :=
  match devices with
  | [] => false
  | tmpDevice :: rest =>
      if bool_decide (vendorID tmpConfig = vendorId tmpDevice)
         && bool_decide (productID tmpConfig = productId tmpDevice)
      then true
      else matches_device tmpConfig rest
  end.

(** The outer loop over [files]; the result is the return value together
    with [this._type] as the loop leaves it. *)
Fixpoint scan_files (fs : Storage) (devices : list Device) (type : string)
  (files : list string) : Error + (bool * string) :=
  match files with
  | [] => inr (false, type)
  | file :: rest =>
      match require fs (type +:+ "/" +:+ file) with
      | inl err => inl err
      | inr tmpConfig =>
          if matches_device tmpConfig devices
          then inr (true, type +:+ "/" +:+ JS.replace ".json" "" file)
          else scan_files fs devices type rest
      end
  end.

Definition detectControllerConfiguration (fs : Storage)
  (devices : list Device) (type : string) : Error + (bool * string) :=
  if hasProductId type then inr (true, type)
  else
    match directories fs !! type with
    | None => inl (ConfigurationNotFound type)
    | Some files => scan_files fs devices type files
    end.

Definition set_vendorID (v : Z) (c : IGamepadDefinition) :=
  mkDefinition v (productID c) (joysticks c) (buttons c) (status c).

Definition set_productID (v : Z) (c : IGamepadDefinition) :=
  mkDefinition (vendorID c) v (joysticks c) (buttons c) (status c).

(** [loadConfiguration] returns the store after the writes to the loaded
    definition, and [this._config]. *)
Definition loadConfiguration (fs : Storage) (type : string)
  (options : IGamepadOptions) : Error + (Storage * IGamepadDefinition) :=
  let configPath := type +:+ ".json" in
  match definitions fs !! configPath with
  | None => inl (DefinitionNotFound type)
  | Some config =>
      let config :=
        if JS.truthy_number (opt_vendorID options)
        then set_vendorID (default 0%Z (opt_vendorID options)) config
        else config in
      let config :=
        if JS.truthy_number (opt_productID options)
        then set_productID (default 0%Z (opt_productID options)) config
        else config in
      inr (mkStorage (directories fs)
                     (<[configPath := config]> (definitions fs)),
           config)
  end.

(** The first statement of [connect]: detection, and the error thrown
    when it returns [false].  The result is the resolved [this._type]. *)
Definition resolve (fs : Storage) (devices : list Device) (type : string)
  : Error + string :=
  match detectControllerConfiguration fs devices type with
  | inl err => inl err
  | inr (false, _) => inl (DeviceNotDetected type)
  | inr (true, type') => inr type'
  end.

(** [connect] up to the point where the device handle is opened: the
    resolved type, the store and the loaded configuration. *)
Definition connect (fs : Storage) (devices : list Device) (type : string)
  (options : IGamepadOptions)
  : Error + (string * Storage * IGamepadDefinition) :=
  match resolve fs devices type with
  | inl err => inl err
  | inr type' =>
      match loadConfiguration fs type' options with
      | inl err => inl err
      | inr (fs', config) => inr (type', fs', config)
      end
  end.

(** ** Event names

    Event names are built as [name + ":move"] and the like.  The four
    suffixes end differently, so an event name determines both the field
    name and the kind of transition. *)

Fixpoint chars (s : string) : list ascii :=
  match s with
  | EmptyString => []
  | String c s' => c :: chars s'
  end.

Definition suffixes : list string := [":move"; ":press"; ":release"; ":change"].

(** The event names a field called [name] can emit under, and the events
    of that field among [evs], in emission order. *)
Definition event_names (name : string) : list string :=
  (λ suf, name +:+ suf) <$> suffixes.

Definition events_of (name : string) (evs : list Event) : list Event :=
  filter (λ e, ev_name e ∈ event_names name) evs.

(** The field names of a definition, by category.  The state object is
    one namespace: the names of a definition are distinct when no name
    occurs twice, within a category or across categories. *)
Definition stick_names (config : IGamepadDefinition) : list string :=
  stick_name <$> default [] (joysticks config).

Definition button_names (config : IGamepadDefinition) : list string :=
  button_name <$> default [] (buttons config).

Definition status_names (config : IGamepadDefinition) : list string :=
  status_name <$> default [] (status config).

Definition names_distinct (config : IGamepadDefinition) : Prop :=
  NoDup (stick_names config ++ button_names config ++ status_names config).

(** ** A sample store *)

Definition sample_path : string := "logitech/gamepadf310.json".

Definition sample_definition : IGamepadDefinition :=
  mkDefinition 1133 49693
    (Some [mkStickConfig "left" 2 3])
    (Some [mkButtonConfig 1 4 "fire"])
    None.

Definition sample_fs : Storage :=
  mkStorage {[ "logitech" := ["gamepadf310.json"] ]}
            {[ sample_path := sample_definition ]}.

(** ** Button transitions as the specification words them

    [pressed b data] is the decoded state of button [b] in a frame.
    [edge name prev now] lists what a frame reports for a button whose
    previous state was [prev] and whose decoded state is [now]: a press on
    a rising edge, a release on a falling edge, nothing otherwise.
    [edges] does this along a sequence of decoded states. *)

Definition pressed (b : IButtonConfig) (data : Buffer) : bool :=
  bool_decide (JS.and_ff (data_at data (button_pin b)) = button_value b).

Definition edge (name : string) (prev now : bool) : list Event :=
  match prev, now with
  | false, true => [mkEvent (name +:+ ":press") []]
  | true, false => [mkEvent (name +:+ ":release") []]
  | _, _ => []
  end.

Fixpoint edges (name : string) (prev : bool) (nows : list bool)
  : list (list Event) :=
  match nows with
  | [] => []
  | now :: rest => edge name prev now :: edges name now rest
  end.

(** ** A sample definition *)

Definition sample : IGamepadDefinition :=
  mkDefinition 1133 49693
    (Some [mkStickConfig "left" 2 3; mkStickConfig "right" 0 1])
    (Some [mkButtonConfig 1 4 "fire"; mkButtonConfig 8 4 "jump"])
    (Some [mkStatusConfig 5 "mode"
             [mkStatusState 0 "off"; mkStatusState 1 "on";
              mkStatusState 1 "always"];
           mkStatusConfig 5 "battery" []]).

(** ** Decoded values of a frame, and transitions between frames

    [pair_at s data] is the pair a frame holds at the pins of stick [s],
    [label_at s data] the label a frame resolves to for status [s].
    [moves] and [changes] list, frame by frame, the events that a
    sequence of decoded values calls for when an event stands for a
    difference from the value before: [prev] is the value before the first
    frame, [None] for a stick that has not been observed. *)

Definition pair_at (s : IStickConfig) (data : Buffer) : IStickState :=
  mkStick (data_at data (x_pin s)) (data_at data (y_pin s)).

Definition label_at (s : IStatusConfig) (data : Buffer) : option string :=
  resolve_label (states s) (JS.and_ff (data_at data (status_pin s))).

Fixpoint moves (name : string) (prev : option IStickState)
  (pairs : list IStickState) : list (list Event) :=
  match pairs with
  | [] => []
  | p :: rest =>
      (match prev with
       | Some q =>
           if bool_decide (q = p) then []
           else [mkEvent (name +:+ ":move") [VStick p]]
       | None => []
       end) :: moves name (Some p) rest
  end.

Fixpoint changes (name : string) (prev : option string)
  (labels : list (option string)) : list (list Event) :=
  match labels with
  | [] => []
  | l :: rest =>
      (if bool_decide (prev = l) then []
       else [mkEvent (name +:+ ":change") [label_val l]])
      :: changes name l rest
  end.

(** The entry a stick has in the state object: none before its first
    frame, a pair afterwards. *)
Definition stick_entry (prev : option IStickState) : jsval :=
  match prev with Some q => VStick q | None => VUndef end.

Definition field_names (config : IGamepadDefinition) : list string :=
  stick_names config ++ button_names config ++ status_names config.

(** The test of the detection loop: a definition and an attached device
    carry the same identifiers. *)
Definition device_matches (c : IGamepadDefinition) (d : Device) : Prop :=
  vendorID c = vendorId d ∧ productID c = productId d.

(** ** The gamepad object

    [_usb] is the open device handle, identified by the identifiers it
    was opened with; [None] is [null].  Opening a device is the
    collaborator's business: [hid_open vendorID productID] tells whether
    [new HID.HID(vendorID, productID)] returns a handle or throws. *)

Record Gamepad := mkGamepad {
  _usb : option (Z * Z);
  _type : string;
  _config : option IGamepadDefinition;
  _states : IGamepadState;
  _options : IGamepadOptions
}.

(** [new Gamepad(type, options)]; an absent [options] is [{}]. *)
Definition new_Gamepad (type : string) (options : option IGamepadOptions)
  : Gamepad :=
  mkGamepad None type None fresh (default (mkOptions None None) options).

(** What a call of [connect] throws: one of the configuration errors, or
    the failure of the device constructor. *)
Inductive Thrown :=
| ThrownError (err : Error)
| CannotOpenDevice.

(** The outcome of [this.connect()]: the object and the definition store
    as the call leaves them, the events emitted, and what was thrown, if
    anything. *)
Record Outcome := mkOutcome {
  this_after : Gamepad;
  fs_after : Storage;
  emitted : list Event;
  thrown : option Thrown
}.

Definition connect_gamepad (hid_open : Z → Z → bool) (fs : Storage)
  (devices : list Device) (this : Gamepad) : Outcome :=
  match detectControllerConfiguration fs devices (_type this) with
  | inl err => mkOutcome this fs [] (Some (ThrownError err))
  | inr (false, _) =>
      mkOutcome this fs []
        (Some (ThrownError (DeviceNotDetected (_type this))))
  | inr (true, type') =>
      let this1 :=
        mkGamepad (_usb this) type' (_config this) (_states this)
                  (_options this) in
      match loadConfiguration fs type' (_options this) with
      | inl err =>
          mkOutcome this1 fs [mkEvent "connecting" []]
            (Some (ThrownError err))
      | inr (fs', config) =>
          let this2 :=
            mkGamepad (_usb this) type' (Some config) (_states this)
                      (_options this) in
          if hid_open (vendorID config) (productID config)
          then
            mkOutcome
              (mkGamepad (Some (vendorID config, productID config)) type'
                         (Some config) (_states this) (_options this))
              fs'
              [mkEvent "connecting" []; mkEvent "connected" []]
              None
          else
            mkOutcome this2 fs' [mkEvent "connecting" []]
              (Some CannotOpenDevice)
      end
  end.

(** ** Definitions with names that every object inherits

    The field names of these definitions are distinct, and each has a
    field whose name a fresh object already answers to. *)

Definition toString_stick : IGamepadDefinition :=
  mkDefinition 1 1 (Some [mkStickConfig "toString" 0 1]) None None.

Definition constructor_button : IGamepadDefinition :=
  mkDefinition 1 1 None (Some [mkButtonConfig 1 0 "constructor"]) None.

Definition proto_status : IGamepadDefinition :=
  mkDefinition 1 1 None None
    (Some [mkStatusConfig 0 "__proto__"
             [mkStatusState 0 "off"; mkStatusState 1 "on"]]).

Definition valueOf_status : IGamepadDefinition :=
  mkDefinition 1 1 None None (Some [mkStatusConfig 0 "valueOf" []]).

Definition proto_stick : IGamepadDefinition :=
  mkDefinition 1 1
    (Some [mkStickConfig "__proto__" 0 1])
    (Some [mkButtonConfig 1 2 "x"])
    (Some [mkStatusConfig 2 "y" []]).

(** * Properties *)

Section EventNames.

Lemma chars_app s1 s2 : chars (s1 +:+ s2) = chars s1 ++ chars s2.
Proof. induction s1 as [|c s1 IH]; simpl; [done | by rewrite IH]. Qed.

Lemma chars_inj s1 s2 : chars s1 = chars s2 → s1 = s2.
Proof.
  revert s2; induction s1 as [|c s1 IH]; intros [|d s2] Heq;
    simpl in Heq; try discriminate; [done |].
  injection Heq as -> Heq. f_equal. by apply IH.
Qed.

Lemma rev_chars_app s suf :
  rev (chars (s +:+ suf)) = rev (chars suf) ++ rev (chars s).
Proof. by rewrite chars_app, rev_app_distr. Qed.

#[global] Instance append_suffix_inj suf : Inj (=) (=) (λ s, s +:+ suf).
Proof.
  intros s1 s2 Heq. apply chars_inj.
  apply (f_equal chars) in Heq. rewrite !chars_app in Heq.
  by apply app_inv_tail in Heq.
Qed.

End EventNames.

(** Two event names with different known suffixes cannot coincide. *)
Ltac suffix_clash H :=
  apply (f_equal (λ s, rev (chars s))) in H;
  rewrite !rev_chars_app in H; simpl in H; discriminate H.

Lemma event_name_unique n1 n2 suf1 suf2 :
  suf1 ∈ suffixes → suf2 ∈ suffixes →
  n1 +:+ suf1 = n2 +:+ suf2 → n1 = n2 ∧ suf1 = suf2.
Proof.
  unfold suffixes. intros H1 H2 Heq.
  repeat (apply elem_of_cons in H1 as [-> | H1]);
    try (by apply elem_of_nil in H1);
    repeat (apply elem_of_cons in H2 as [-> | H2]);
    try (by apply elem_of_nil in H2);
    first [ split; [by apply (inj (λ s, s +:+ _)) in Heq | done]
          | suffix_clash Heq ].
Qed.

Lemma filter_none {B} (P : B → Prop) `{!∀ x, Decision (P x)} (l : list B) :
  (∀ x, x ∈ l → ¬ P x) → filter P l = [].
Proof.
  induction l as [|x l IH]; intros Hl; [done |].
  rewrite filter_cons_False by (apply Hl; left).
  apply IH. intros y Hy. apply Hl. by right.
Qed.

Lemma filter_all {B} (P : B → Prop) `{!∀ x, Decision (P x)} (l : list B) :
  (∀ x, x ∈ l → P x) → filter P l = l.
Proof.
  induction l as [|x l IH]; intros Hl; [done |].
  rewrite filter_cons_True by (apply Hl; left).
  f_equal. apply IH. intros y Hy. apply Hl. by right.
Qed.

(** An event name belongs to one field only. *)
Lemma event_names_owner s n1 n2 :
  s ∈ event_names n1 → s ∈ event_names n2 → n1 = n2.
Proof.
  unfold event_names. intros H1 H2.
  apply list_elem_of_fmap in H1 as (suf1 & -> & H1).
  apply list_elem_of_fmap in H2 as (suf2 & Heq & H2).
  by destruct (event_name_unique _ _ _ _ H1 H2 Heq).
Qed.

Lemma event_names_intro n suf : suf ∈ suffixes → n +:+ suf ∈ event_names n.
Proof.
  intros Hs. unfold event_names.
  by apply (list_elem_of_fmap_2 (λ suf, n +:+ suf)).
Qed.

Ltac in_suffixes :=
  unfold suffixes;
  repeat first [ apply list_elem_of_here | apply list_elem_of_further ].


(** Closed decidable facts about concrete definitions, by evaluation. *)
Ltac decide_by_compute := apply (bool_decide_unpack _); vm_compute; exact I.

(** ** Reading and writing the state object *)

Lemma get_put st k v : k ≠ "__proto__" → get (put st k v) k = v.
Proof.
  intros Hk. unfold get, put. rewrite !bool_decide_eq_false_2 by done.
  simpl. by rewrite lookup_insert_eq.
Qed.

Lemma own_put_ne st k k' v : k' ≠ k → own (put st k v) !! k' = own st !! k'.
Proof.
  intros Hne. unfold put. case_bool_decide; [by destruct v |].
  simpl. by rewrite lookup_insert_ne.
Qed.

Lemma proto_put st k v : k ≠ "__proto__" → proto (put st k v) = proto st.
Proof. intros Hk. unfold put. by rewrite bool_decide_eq_false_2. Qed.

(** A boolean, a string or undefined written to ["__proto__"] is
    dropped. *)
Lemma put_proto_ignored st v :
  (∀ p, v ≠ VStick p) → put st "__proto__" v = st.
Proof. intros Hv. unfold put; simpl. destruct v; try done. by destruct (Hv s). Qed.

Lemma proto_put_prim st k v :
  (∀ p, v ≠ VStick p) → proto (put st k v) = proto st.
Proof.
  intros Hv. unfold put. case_bool_decide; [| done].
  destruct v; try done. by destruct (Hv s).
Qed.

Lemma get_frame_eq st st' k :
  own st' !! k = own st !! k → proto st' = proto st → get st' k = get st k.
Proof. intros Ho Hp. unfold get, inherited. by rewrite Ho, Hp. Qed.

Lemma get_anchored st st' k :
  anchored st k → own st' !! k = own st !! k → get st' k = get st k.
Proof.
  intros [Hk [v Hv]] Ho. unfold get.
  rewrite bool_decide_eq_false_2 by done. by rewrite Ho, Hv.
Qed.

Lemma anchored_own_eq st st' k :
  anchored st k → own st' !! k = own st !! k → anchored st' k.
Proof. intros [Hk Hv] Ho. split; [done | by rewrite Ho]. Qed.

Lemma anchored_put st k v : k ≠ "__proto__" → anchored (put st k v) k.
Proof.
  intros Hk. split; [done |]. unfold put.
  rewrite bool_decide_eq_false_2 by done. simpl.
  rewrite lookup_insert_eq. by eexists.
Qed.

Lemma anchored_put_keep st k k' v : anchored st k' → anchored (put st k v) k'.
Proof.
  intros [Hk' Hv]. destruct (decide (k' = k)) as [-> | Hne].
  - by apply anchored_put.
  - split; [done |]. by rewrite own_put_ne.
Qed.

(** What reads as a boolean or a string is an own property; what is
    inherited is a method, [Object.prototype], a pair or a number. *)
Lemma get_bool_anchored st k b : get st k = VBool b → anchored st k.
Proof.
  unfold get, anchored, inherited, from_object_prototype, coordinate.
  case_bool_decide; [by destruct (proto st) |].
  destruct (own st !! k); [by eauto |].
  intros Hget. exfalso. revert Hget.
  destruct (proto st) as [[[x|] [y|]]|]; simpl; repeat case_bool_decide; done.
Qed.

Lemma get_str_anchored st k s : get st k = VStr s → anchored st k.
Proof.
  unfold get, anchored, inherited, from_object_prototype, coordinate.
  case_bool_decide; [by destruct (proto st) |].
  destruct (own st !! k); [by eauto |].
  intros Hget. exfalso. revert Hget.
  destruct (proto st) as [[[x|] [y|]]|]; simpl; repeat case_bool_decide; done.
Qed.

Lemma get_undef_plain st k : get st k = VUndef → k ≠ "__proto__".
Proof.
  unfold get. case_bool_decide; [by destruct (proto st) | done].
Qed.

(** A fresh object answers to the names of [Object.prototype] and to no
    other. *)
Lemma get_fresh k :
  get fresh k
  = if bool_decide (k ∈ "__proto__" :: object_methods) then VObject
    else VUndef.
Proof.
  unfold get, fresh, inherited, from_object_prototype; simpl.
  rewrite lookup_empty.
  case_bool_decide as Hk; [subst k; done |].
  destruct (decide (k ∈ object_methods)) as [Hin | Hout].
  - rewrite !bool_decide_eq_true_2; [done | by right | done].
  - rewrite !bool_decide_eq_false_2; [done | | done].
    intros [? | ?]%elem_of_cons; done.
Qed.

Lemma get_put_stick st k p : get (put st k (VStick p)) k = VStick p.
Proof.
  destruct (decide (k = "__proto__")) as [-> | Hk]; [done |].
  by apply get_put.
Qed.

Lemma get_put_agree st1 st2 k v :
  get st1 k = get st2 k → get (put st1 k v) k = get (put st2 k v) k.
Proof.
  intros Heq. destruct (decide (k = "__proto__")) as [-> | Hk].
  - by destruct v.
  - by rewrite !get_put.
Qed.

(** ** Reasoning about [forEach] over named fields

    Each of the three sub-passes runs a callback per configured field;
    the callback reads and writes the single state entry named by the
    field.  The section derives what the whole pass does to one field
    from what its callback does.  A callback is [quiet] when it leaves
    the prototype of the state object alone. *)

Section FieldPass.

Context {A : Type} (key : A → string) (cb : A → pass) (quiet : A → Prop).

(** The callback writes no own property but its own. *)
Hypothesis cb_own :
  ∀ a st k, k ≠ key a → own (cb a st).1 !! k = own st !! k.

(** The callback removes no own property. *)
Hypothesis cb_keep :
  ∀ a st k, anchored st k → anchored (cb a st).1 k.

Hypothesis cb_proto :
  ∀ a st, quiet a → proto (cb a st).1 = proto st.

(** The callback reads no entry but its own. *)
Hypothesis cb_local :
  ∀ a st1 st2, get st1 (key a) = get st2 (key a) →
    get (cb a st1).1 (key a) = get (cb a st2).1 (key a)
    ∧ (cb a st1).2 = (cb a st2).2.

Lemma forEach_cons a l st :
  forEach cb (a :: l) st =
    ((forEach cb l (cb a st).1).1, (cb a st).2 ++ (forEach cb l (cb a st).1).2).
Proof.
  simpl. destruct (cb a st) as [st1 ev1]; simpl.
  by destruct (forEach cb l st1).
Qed.

Lemma get_frame a st k :
  k ≠ key a → quiet a ∨ anchored st k → get (cb a st).1 k = get st k.
Proof.
  intros Hk [Hq | Ha].
  - apply get_frame_eq; [by apply cb_own | by apply cb_proto].
  - apply get_anchored; [done | by apply cb_own].
Qed.

Lemma forEach_own_frame l st k :
  k ∉ key <$> l → own (forEach cb l st).1 !! k = own st !! k.
Proof.
  revert st; induction l as [|a l IH]; intros st Hk; [done |].
  rewrite forEach_cons; simpl. rewrite fmap_cons in Hk.
  apply not_elem_of_cons in Hk as [Hne Hk].
  rewrite IH by done. by apply cb_own.
Qed.

Lemma forEach_keep l st k :
  anchored st k → anchored (forEach cb l st).1 k.
Proof.
  revert st; induction l as [|a l IH]; intros st Ha; [done |].
  rewrite forEach_cons; simpl. by apply IH, cb_keep.
Qed.

Lemma forEach_proto l st :
  Forall quiet l → proto (forEach cb l st).1 = proto st.
Proof.
  intros Hq. revert st; induction Hq as [|a l Ha Hq IH]; intros st; [done |].
  rewrite forEach_cons; simpl. rewrite IH. by apply cb_proto.
Qed.

Lemma forEach_get_frame l st k :
  k ∉ key <$> l → Forall quiet l ∨ anchored st k →
  get (forEach cb l st).1 k = get st k.
Proof.
  intros Hk [Hq | Ha].
  - apply get_frame_eq; [by apply forEach_own_frame | by apply forEach_proto].
  - apply get_anchored; [done | by apply forEach_own_frame].
Qed.

Lemma forEach_events l st e :
  e ∈ (forEach cb l st).2 → ∃ a st', a ∈ l ∧ e ∈ (cb a st').2.
Proof.
  revert st; induction l as [|a l IH]; intros st He.
  - by apply elem_of_nil in He.
  - rewrite forEach_cons in He; simpl in He.
    apply elem_of_app in He as [He | He].
    + exists a, st. split; [left | done].
    + destruct (IH _ He) as (b & st' & Hb & Hin).
      exists b, st'. split; [by right | done].
Qed.

(** States that agree on the fields of the pass give the same events
    and agree on those fields afterwards. *)
Lemma forEach_local l st1 st2 :
  Forall quiet l →
  (∀ a, a ∈ l → get st1 (key a) = get st2 (key a)) →
  (forEach cb l st1).2 = (forEach cb l st2).2
  ∧ ∀ k, k ∈ key <$> l →
      get (forEach cb l st1).1 k = get (forEach cb l st2).1 k.
Proof.
  intros Hq. revert st1 st2.
  induction Hq as [|a l Ha Hq IH]; intros st1 st2 Hagree.
  - split; [done |]. intros k Hk. by apply elem_of_nil in Hk.
  - rewrite !forEach_cons; simpl.
    destruct (cb_local a st1 st2) as [Hget Hev]; [apply Hagree; left |].
    assert (Hnext : ∀ b, b ∈ l →
              get (cb a st1).1 (key b) = get (cb a st2).1 (key b)).
    { intros b Hb. destruct (decide (key b = key a)) as [-> | Hne]; [done |].
      rewrite !get_frame by auto. apply Hagree. by right. }
    destruct (IH _ _ Hnext) as [IHev IHget]. split.
    + by rewrite Hev, IHev.
    + intros k Hk.
      destruct (decide (k ∈ key <$> l)) as [Hin | Hout]; [by apply IHget |].
      apply elem_of_cons in Hk as [-> | Hk]; [| done].
      by rewrite !forEach_get_frame by auto.
Qed.

(** With distinct field names, the entry of a field after the pass and
    the events of that field are those of its own callback, run on the
    state the pass started from. *)
Lemma forEach_at l st a (P : Event → Prop) `{!∀ e, Decision (P e)} :
  NoDup (key <$> l) → a ∈ l →
  Forall quiet l ∨ anchored st (key a) →
  (∀ b st' e, b ∈ l → key b ≠ key a → e ∈ (cb b st').2 → ¬ P e) →
  get (forEach cb l st).1 (key a) = get (cb a st).1 (key a)
  ∧ filter P (forEach cb l st).2 = filter P (cb a st).2.
Proof.
  revert st; induction l as [|b l IH]; intros st Hnd Ha Hcond Hothers.
  - by apply elem_of_nil in Ha.
  - rewrite fmap_cons in Hnd. apply NoDup_cons in Hnd as [Hb Hnd].
    rewrite forEach_cons; simpl. rewrite filter_app.
    assert (Hkeys : ∀ c, c ∈ l → key c ≠ key b).
    { intros c Hc Heq. apply Hb. rewrite <- Heq.
      by apply list_elem_of_fmap_2. }
    assert (Hrest : Forall quiet l ∨ anchored (cb b st).1 (key a)).
    { destruct Hcond as [Hq | Hanch]; [| right; by apply cb_keep].
      left. by apply Forall_cons in Hq as [_ Hq]. }
    destruct (decide (key a = key b)) as [Hab | Hab].
    + (* [a] is the head of the list, up to its name *)
      assert (Hnone : filter P (forEach cb l (cb b st).1).2 = []).
      { apply filter_none. intros e He.
        apply forEach_events in He as (c & st' & Hc & He).
        apply (Hothers c st' e); [by right | | done].
        rewrite Hab. by apply Hkeys. }
      rewrite Hnone, app_nil_r.
      rewrite forEach_get_frame; [| by rewrite Hab | done].
      apply elem_of_cons in Ha as [-> | Ha]; [done |].
      exfalso. by apply (Hkeys a).
    + apply elem_of_cons in Ha as [-> | Ha]; [done |].
      assert (Hhead : filter P (cb b st).2 = []).
      { apply filter_none. intros e He.
        apply (Hothers b st e); [left | done | done]. }
      rewrite Hhead; simpl.
      destruct (IH (cb b st).1 Hnd Ha Hrest) as [IHget IHev].
      { intros c st' e Hc. apply Hothers. by right. }
      destruct (cb_local a (cb b st).1 st) as [Hget Hev].
      { apply get_frame; [done |].
        destruct Hcond as [Hq | Hanch]; [left | by right].
        by apply Forall_cons in Hq as [Hq _]. }
      by rewrite IHget, IHev, Hget, Hev.
Qed.

(** The events of the callback bear the name of its field. *)
Hypothesis cb_owned :
  ∀ a st e, e ∈ (cb a st).2 → ev_name e ∈ event_names (key a).

Lemma forEach_own l st a :
  NoDup (key <$> l) → a ∈ l →
  Forall quiet l ∨ anchored st (key a) →
  get (forEach cb l st).1 (key a) = get (cb a st).1 (key a)
  ∧ events_of (key a) (forEach cb l st).2 = (cb a st).2.
Proof.
  intros Hnd Ha Hcond. unfold events_of.
  destruct (forEach_at l st a (λ e, ev_name e ∈ event_names (key a)))
    as [Hget Hev]; try done.
  - intros b st' e _ Hne He Hin. apply cb_owned in He.
    apply Hne. by apply (event_names_owner (ev_name e)).
  - split; [done |]. rewrite Hev. apply filter_all.
    intros e He. by apply cb_owned in He.
Qed.

Lemma forEach_foreign l st k :
  k ∉ key <$> l → events_of k (forEach cb l st).2 = [].
Proof.
  intros Hk. apply filter_none. intros e He Hin.
  apply forEach_events in He as (a & st' & Ha & He).
  apply cb_owned in He. apply Hk.
  rewrite (event_names_owner _ _ _ Hin He).
  by apply list_elem_of_fmap_2.
Qed.

End FieldPass.

(** ** The three callbacks are field-local *)

Section Callbacks.

Variable data : Buffer.

Lemma stick_cb_own s st k :
  k ≠ stick_name s → own (stick_cb data s st).1 !! k = own st !! k.
Proof.
  intros Hne. unfold stick_cb.
  repeat case_match; simpl; try done; by rewrite own_put_ne.
Qed.

Lemma stick_cb_keep s st k :
  anchored st k → anchored (stick_cb data s st).1 k.
Proof.
  intros Ha. unfold stick_cb.
  repeat case_match; simpl; try done; by apply anchored_put_keep.
Qed.

Lemma stick_cb_proto s st :
  stick_name s ≠ "__proto__" → proto (stick_cb data s st).1 = proto st.
Proof.
  intros Hk. unfold stick_cb.
  repeat case_match; simpl; try done; by rewrite proto_put.
Qed.

Lemma stick_cb_local s st1 st2 :
  get st1 (stick_name s) = get st2 (stick_name s) →
  get (stick_cb data s st1).1 (stick_name s)
    = get (stick_cb data s st2).1 (stick_name s)
  ∧ (stick_cb data s st1).2 = (stick_cb data s st2).2.
Proof.
  intros Heq. unfold stick_cb. rewrite Heq.
  repeat case_match; simpl; rewrite ?get_put_stick; done.
Qed.

Lemma stick_cb_events s st e :
  e ∈ (stick_cb data s st).2 → ev_name e = stick_name s +:+ ":move".
Proof.
  unfold stick_cb. repeat case_match; simpl; intros He;
    try (by apply elem_of_nil in He).
  by apply list_elem_of_singleton in He as ->.
Qed.

Lemma button_cb_own b st k :
  k ≠ button_name b → own (button_cb data b st).1 !! k = own st !! k.
Proof.
  intros Hne. unfold button_cb.
  case_match; simpl; by rewrite own_put_ne.
Qed.

Lemma button_cb_keep b st k :
  anchored st k → anchored (button_cb data b st).1 k.
Proof.
  intros Ha. unfold button_cb. case_match; simpl; by apply anchored_put_keep.
Qed.

Lemma button_cb_proto b st : proto (button_cb data b st).1 = proto st.
Proof. unfold button_cb. case_match; simpl; by apply proto_put_prim. Qed.

Lemma button_cb_local b st1 st2 :
  get st1 (button_name b) = get st2 (button_name b) →
  get (button_cb data b st1).1 (button_name b)
    = get (button_cb data b st2).1 (button_name b)
  ∧ (button_cb data b st1).2 = (button_cb data b st2).2.
Proof.
  intros Heq. unfold button_cb. rewrite Heq.
  case_match; simpl; (split; [by apply get_put_agree | done]).
Qed.

Lemma button_cb_events b st e :
  e ∈ (button_cb data b st).2 →
  ev_name e = button_name b +:+ ":press"
  ∨ ev_name e = button_name b +:+ ":release".
Proof.
  unfold button_cb. repeat case_match; simpl; intros He;
    try (by apply elem_of_nil in He);
    apply list_elem_of_singleton in He as ->; auto.
Qed.

Lemma label_val_prim l p : label_val l ≠ VStick p.
Proof. by destruct l. Qed.

Lemma status_cb_own s st k :
  k ≠ status_name s → own (status_cb data s st).1 !! k = own st !! k.
Proof. intros Hne. unfold status_cb; simpl. by rewrite own_put_ne. Qed.

Lemma status_cb_keep s st k :
  anchored st k → anchored (status_cb data s st).1 k.
Proof. intros Ha. unfold status_cb; simpl. by apply anchored_put_keep. Qed.

Lemma status_cb_proto s st : proto (status_cb data s st).1 = proto st.
Proof.
  unfold status_cb; simpl. apply proto_put_prim. intros p.
  apply label_val_prim.
Qed.

Lemma status_cb_local s st1 st2 :
  get st1 (status_name s) = get st2 (status_name s) →
  get (status_cb data s st1).1 (status_name s)
    = get (status_cb data s st2).1 (status_name s)
  ∧ (status_cb data s st1).2 = (status_cb data s st2).2.
Proof.
  intros Heq. unfold status_cb; simpl. rewrite Heq.
  split; [by apply get_put_agree | done].
Qed.

Lemma status_cb_events s st e :
  e ∈ (status_cb data s st).2 → ev_name e = status_name s +:+ ":change".
Proof.
  unfold status_cb; simpl. case_match; intros He;
    [by apply list_elem_of_singleton in He as -> | by apply elem_of_nil in He].
Qed.

End Callbacks.

(** ** The sub-passes and the whole frame, field by field *)

Section Passes.

Variables (config : IGamepadDefinition) (data : Buffer).

Lemma stick_cb_owned s st e :
  e ∈ (stick_cb data s st).2 → ev_name e ∈ event_names (stick_name s).
Proof.
  intros He. rewrite (stick_cb_events _ _ _ _ He).
  apply event_names_intro. in_suffixes.
Qed.

Lemma button_cb_owned b st e :
  e ∈ (button_cb data b st).2 → ev_name e ∈ event_names (button_name b).
Proof.
  intros He. destruct (button_cb_events _ _ _ _ He) as [-> | ->];
    apply event_names_intro; in_suffixes.
Qed.

Lemma status_cb_owned s st e :
  e ∈ (status_cb data s st).2 → ev_name e ∈ event_names (status_name s).
Proof.
  intros He. rewrite (status_cb_events _ _ _ _ He).
  apply event_names_intro. in_suffixes.
Qed.

(** An absent field list is handled like an empty one. *)
Lemma processJoysticks_forEach st :
  processJoysticks config data st
  = forEach (stick_cb data) (default [] (joysticks config)) st.
Proof. unfold processJoysticks. by destruct (joysticks config). Qed.

Lemma processButtons_forEach st :
  processButtons config data st
  = forEach (button_cb data) (default [] (buttons config)) st.
Proof. unfold processButtons. by destruct (buttons config). Qed.

Lemma processStatus_forEach st :
  processStatus config data st
  = forEach (status_cb data) (default [] (status config)) st.
Proof. unfold processStatus. by destruct (status config). Qed.

Lemma onControllerFrame_passes st :
  onControllerFrame config data st =
    let r1 := processJoysticks config data st in
    let r2 := processButtons config data r1.1 in
    let r3 := processStatus config data r2.1 in
    (r3.1, r1.2 ++ r2.2 ++ r3.2).
Proof.
  unfold onControllerFrame.
  destruct (processJoysticks config data st) as [st1 ev1]; simpl.
  destruct (processButtons config data st1) as [st2 ev2]; simpl.
  by destruct (processStatus config data st2) as [st3 ev3].
Qed.

Lemma events_of_app k ev1 ev2 :
  events_of k (ev1 ++ ev2) = events_of k ev1 ++ events_of k ev2.
Proof. apply filter_app. Qed.

(** Only a stick called ["__proto__"] touches the prototype of the state
    object. *)
Lemma sticks_quiet :
  "__proto__" ∉ stick_names config →
  Forall (λ s, stick_name s ≠ "__proto__") (default [] (joysticks config)).
Proof.
  intros Hno. apply Forall_forall. intros s Hs Heq. apply Hno.
  rewrite <- Heq. by apply list_elem_of_fmap_2.
Qed.

Lemma sticks_quiet_or st k :
  "__proto__" ∉ stick_names config ∨ anchored st k →
  Forall (λ s, stick_name s ≠ "__proto__") (default [] (joysticks config))
  ∨ anchored st k.
Proof. intros [Hno | Ha]; [left; by apply sticks_quiet | by right]. Qed.

Lemma all_quiet {B} (l : list B) : Forall (λ _, True) l.
Proof. by apply Forall_forall. Qed.

(** *** One sub-pass *)

Lemma processJoysticks_own s st :
  NoDup (stick_names config) → s ∈ default [] (joysticks config) →
  "__proto__" ∉ stick_names config ∨ anchored st (stick_name s) →
  get (processJoysticks config data st).1 (stick_name s)
    = get (stick_cb data s st).1 (stick_name s)
  ∧ events_of (stick_name s) (processJoysticks config data st).2
    = (stick_cb data s st).2.
Proof.
  intros Hnd Hs Hcond. rewrite processJoysticks_forEach.
  apply (forEach_own stick_name (stick_cb data)
           (λ s, stick_name s ≠ "__proto__") (stick_cb_own data)
           (stick_cb_keep data) (stick_cb_proto data) (stick_cb_local data)
           stick_cb_owned); [done | done | by apply sticks_quiet_or].
Qed.

Lemma processJoysticks_get_foreign st k :
  k ∉ stick_names config →
  "__proto__" ∉ stick_names config ∨ anchored st k →
  get (processJoysticks config data st).1 k = get st k.
Proof.
  intros Hk Hcond. rewrite processJoysticks_forEach.
  apply (forEach_get_frame stick_name (stick_cb data)
           (λ s, stick_name s ≠ "__proto__") (stick_cb_own data)
           (stick_cb_proto data)); [done | by apply sticks_quiet_or].
Qed.

Lemma processJoysticks_events_foreign st k :
  k ∉ stick_names config →
  events_of k (processJoysticks config data st).2 = [].
Proof.
  intros Hk. rewrite processJoysticks_forEach.
  by apply (forEach_foreign stick_name _ stick_cb_owned).
Qed.

Lemma processJoysticks_keep st k :
  anchored st k → anchored (processJoysticks config data st).1 k.
Proof.
  intros Ha. rewrite processJoysticks_forEach.
  by apply (forEach_keep (stick_cb data) (stick_cb_keep data)).
Qed.

Lemma processJoysticks_own_frame st k :
  k ∉ stick_names config →
  own (processJoysticks config data st).1 !! k = own st !! k.
Proof.
  intros Hk. rewrite processJoysticks_forEach.
  by apply (forEach_own_frame stick_name _ (stick_cb_own data)).
Qed.

Lemma processButtons_own b st :
  NoDup (button_names config) → b ∈ default [] (buttons config) →
  get (processButtons config data st).1 (button_name b)
    = get (button_cb data b st).1 (button_name b)
  ∧ events_of (button_name b) (processButtons config data st).2
    = (button_cb data b st).2.
Proof.
  intros Hnd Hb. rewrite processButtons_forEach.
  apply (forEach_own button_name (button_cb data) (λ _, True)
           (button_cb_own data) (button_cb_keep data)
           (λ b st _, button_cb_proto data b st) (button_cb_local data)
           button_cb_owned); [done | done | left; apply all_quiet].
Qed.

Lemma processButtons_foreign st k :
  k ∉ button_names config →
  get (processButtons config data st).1 k = get st k
  ∧ events_of k (processButtons config data st).2 = [].
Proof.
  intros Hk. rewrite processButtons_forEach. split.
  - apply (forEach_get_frame button_name (button_cb data) (λ _, True)
             (button_cb_own data) (λ b st _, button_cb_proto data b st));
      [done | left; apply all_quiet].
  - by apply (forEach_foreign button_name _ button_cb_owned).
Qed.

Lemma processButtons_keep st k :
  anchored st k → anchored (processButtons config data st).1 k.
Proof.
  intros Ha. rewrite processButtons_forEach.
  by apply (forEach_keep (button_cb data) (button_cb_keep data)).
Qed.

Lemma processButtons_own_frame st k :
  k ∉ button_names config →
  own (processButtons config data st).1 !! k = own st !! k.
Proof.
  intros Hk. rewrite processButtons_forEach.
  by apply (forEach_own_frame button_name _ (button_cb_own data)).
Qed.

Lemma processStatus_own s st :
  NoDup (status_names config) → s ∈ default [] (status config) →
  get (processStatus config data st).1 (status_name s)
    = get (status_cb data s st).1 (status_name s)
  ∧ events_of (status_name s) (processStatus config data st).2
    = (status_cb data s st).2.
Proof.
  intros Hnd Hs. rewrite processStatus_forEach.
  apply (forEach_own status_name (status_cb data) (λ _, True)
           (status_cb_own data) (status_cb_keep data)
           (λ s st _, status_cb_proto data s st) (status_cb_local data)
           status_cb_owned); [done | done | left; apply all_quiet].
Qed.

Lemma processStatus_foreign st k :
  k ∉ status_names config →
  get (processStatus config data st).1 k = get st k
  ∧ events_of k (processStatus config data st).2 = [].
Proof.
  intros Hk. rewrite processStatus_forEach. split.
  - apply (forEach_get_frame status_name (status_cb data) (λ _, True)
             (status_cb_own data) (λ s st _, status_cb_proto data s st));
      [done | left; apply all_quiet].
  - by apply (forEach_foreign status_name _ status_cb_owned).
Qed.

Lemma processStatus_own_frame st k :
  k ∉ status_names config →
  own (processStatus config data st).1 !! k = own st !! k.
Proof.
  intros Hk. rewrite processStatus_forEach.
  by apply (forEach_own_frame status_name _ (status_cb_own data)).
Qed.

(** *** The whole frame, under distinct names *)

Lemma names_distinct_inv :
  names_distinct config →
  NoDup (stick_names config) ∧ NoDup (button_names config)
  ∧ NoDup (status_names config)
  ∧ (∀ k, k ∈ stick_names config →
       (k ∉ button_names config) ∧ (k ∉ status_names config))
  ∧ (∀ k, k ∈ button_names config →
       (k ∉ stick_names config) ∧ (k ∉ status_names config))
  ∧ (∀ k, k ∈ status_names config →
       (k ∉ stick_names config) ∧ (k ∉ button_names config)).
Proof.
  unfold names_distinct. intros Hnd.
  apply NoDup_app in Hnd as (Hs & Hsep & Hnd).
  apply NoDup_app in Hnd as (Hb & Hsep' & Ht).
  repeat split; try done.
  - intros Hk. apply (Hsep k); [done |]. apply elem_of_app. by left.
  - intros Hk. apply (Hsep k); [done |]. apply elem_of_app. by right.
  - intros Hk. apply (Hsep k); [done |]. apply elem_of_app. by left.
  - by apply Hsep'.
  - intros Hk. apply (Hsep k); [done |]. apply elem_of_app. by right.
  - intros Hk. by apply (Hsep' k).
Qed.

Lemma onControllerFrame_stick s st :
  names_distinct config → s ∈ default [] (joysticks config) →
  "__proto__" ∉ stick_names config ∨ anchored st (stick_name s) →
  get (onControllerFrame config data st).1 (stick_name s)
    = get (stick_cb data s st).1 (stick_name s)
  ∧ events_of (stick_name s) (onControllerFrame config data st).2
    = (stick_cb data s st).2.
Proof.
  intros Hnd Hs Hcond.
  destruct (names_distinct_inv Hnd) as (Hnds & _ & _ & Hsep & _).
  destruct (Hsep (stick_name s)) as [Hb Ht];
    [by apply list_elem_of_fmap_2 |].
  rewrite onControllerFrame_passes; simpl.
  rewrite !events_of_app.
  destruct (processJoysticks_own s st Hnds Hs Hcond) as [Hg1 He1].
  set (st1 := (processJoysticks config data st).1) in *.
  destruct (processButtons_foreign st1 _ Hb) as [Hg2 He2].
  set (st2 := (processButtons config data st1).1) in *.
  destruct (processStatus_foreign st2 _ Ht) as [Hg3 He3].
  rewrite Hg3, Hg2, Hg1, He1, He2, He3. by rewrite app_nil_r.
Qed.

Lemma onControllerFrame_button b st :
  names_distinct config → b ∈ default [] (buttons config) →
  "__proto__" ∉ stick_names config ∨ anchored st (button_name b) →
  get (onControllerFrame config data st).1 (button_name b)
    = get (button_cb data b st).1 (button_name b)
  ∧ events_of (button_name b) (onControllerFrame config data st).2
    = (button_cb data b st).2.
Proof.
  intros Hnd Hb Hcond.
  destruct (names_distinct_inv Hnd) as (_ & Hndb & _ & _ & Hsep & _).
  destruct (Hsep (button_name b)) as [Hs Ht];
    [by apply list_elem_of_fmap_2 |].
  rewrite onControllerFrame_passes; simpl.
  rewrite !events_of_app.
  pose proof (processJoysticks_get_foreign st _ Hs Hcond) as Hg1.
  pose proof (processJoysticks_events_foreign st _ Hs) as He1.
  set (st1 := (processJoysticks config data st).1) in *.
  destruct (processButtons_own b st1 Hndb Hb) as [Hg2 He2].
  set (st2 := (processButtons config data st1).1) in *.
  destruct (processStatus_foreign st2 _ Ht) as [Hg3 He3].
  destruct (button_cb_local data b st1 st Hg1) as [Hl1 Hl2].
  rewrite Hg3, Hg2, He1, He2, He3, Hl1, Hl2. by rewrite app_nil_r.
Qed.

Lemma onControllerFrame_status s st :
  names_distinct config → s ∈ default [] (status config) →
  "__proto__" ∉ stick_names config ∨ anchored st (status_name s) →
  get (onControllerFrame config data st).1 (status_name s)
    = get (status_cb data s st).1 (status_name s)
  ∧ events_of (status_name s) (onControllerFrame config data st).2
    = (status_cb data s st).2.
Proof.
  intros Hnd Hs Hcond.
  destruct (names_distinct_inv Hnd) as (_ & _ & Hndt & _ & _ & Hsep).
  destruct (Hsep (status_name s)) as [Hj Hb];
    [by apply list_elem_of_fmap_2 |].
  rewrite onControllerFrame_passes; simpl.
  rewrite !events_of_app.
  pose proof (processJoysticks_get_foreign st _ Hj Hcond) as Hg1.
  pose proof (processJoysticks_events_foreign st _ Hj) as He1.
  set (st1 := (processJoysticks config data st).1) in *.
  destruct (processButtons_foreign st1 _ Hb) as [Hg2 He2].
  set (st2 := (processButtons config data st1).1) in *.
  destruct (processStatus_own s st2 Hndt Hs) as [Hg3 He3].
  destruct (status_cb_local data s st2 st) as [Hl1 Hl2];
    [by rewrite Hg2, Hg1 |].
  rewrite Hg3, He1, He2, He3, Hl1, Hl2. done.
Qed.

End Passes.

(** ** The stick sub-pass *)

Lemma stick_cb_fresh data s st :
  get st (stick_name s) = VUndef →
  stick_cb data s st = (put st (stick_name s) (VStick (pair_at s data)), []).
Proof. intros Hget. unfold stick_cb. by rewrite Hget. Qed.

Lemma stick_cb_same data s st old :
  get st (stick_name s) = VStick old →
  st_x old = data_at data (x_pin s) → st_y old = data_at data (y_pin s) →
  stick_cb data s st = (st, []).
Proof.
  intros Hget Hx Hy. unfold stick_cb. rewrite Hget; simpl.
  rewrite !bool_decide_eq_false_2; [done | by intros [] | by intros []].
Qed.

Lemma stick_cb_moved data s st old :
  get st (stick_name s) = VStick old →
  st_x old ≠ data_at data (x_pin s) ∨ st_y old ≠ data_at data (y_pin s) →
  stick_cb data s st =
    (put st (stick_name s) (VStick (pair_at s data)),
     [mkEvent (stick_name s +:+ ":move") [VStick (pair_at s data)]]).
Proof.
  intros Hget Hne. unfold stick_cb. rewrite Hget; simpl.
  destruct Hne as [Hne | Hne].
  - by rewrite (bool_decide_eq_true_2 _ Hne).
  - rewrite (bool_decide_eq_true_2 (st_y old ≠ _) Hne).
    by rewrite orb_true_r.
Qed.

(** C1.  Stick sub-pass, on the code.  The claim that the first frame
    never emits for any stick fails for a stick called "toString": the
    state object is created as [{}], which answers to that name with an
    inherited method, so the baseline branch is skipped, the method's
    missing [x] differs from the byte, and the first frame of the session
    emits "toString:move" with the pair read. *)
Theorem toString_stick_moves_at_once :
  names_distinct toString_stick
  ∧ get fresh "toString" = VObject
  ∧ processJoysticks toString_stick [x0a; x14] fresh
    = (put fresh "toString" (VStick (mkStick (Some 10%Z) (Some 20%Z))),
       [mkEvent "toString:move"
          [VStick (mkStick (Some 10%Z) (Some 20%Z))]]).
Proof.
  split; [decide_by_compute |]. split; [done |].
  vm_compute. reflexivity.
Qed.

(** ** The button sub-pass *)

Lemma button_cb_first data b st :
  get st (button_name b) = VUndef →
  button_cb data b st =
    (put st (button_name b) (VBool (pressed b data)),
     if pressed b data then [mkEvent (button_name b +:+ ":press") []] else []).
Proof. intros Hget. unfold button_cb, pressed. by rewrite Hget. Qed.

Lemma button_cb_later data b st prev :
  get st (button_name b) = VBool prev →
  button_cb data b st =
    (put st (button_name b) (VBool (pressed b data)),
     edge (button_name b) prev (pressed b data)).
Proof.
  intros Hget. unfold button_cb. fold (pressed b data). rewrite Hget; simpl.
  by destruct prev, (pressed b data).
Qed.

(** C4.  Button sub-pass, first observation, on the code.  The claim
    that a first frame whose byte differs from the pressed value emits
    nothing fails for a button called "constructor": the state object
    [{}] answers to that name with an inherited function, so the button
    is not taken as new, the function differs from [false], and the first
    frame of the session emits "constructor:release". *)
Theorem constructor_button_released_at_once :
  names_distinct constructor_button
  ∧ get fresh "constructor" = VObject
  ∧ pressed (mkButtonConfig 1 0 "constructor") [x00] = false
  ∧ processButtons constructor_button [x00] fresh
    = (put fresh "constructor" (VBool false),
       [mkEvent "constructor:release" []]).
Proof.
  split; [decide_by_compute |]. split; [done |]. split; [done |].
  vm_compute. reflexivity.
Qed.

(** The state entry of a button along a run, and its events frame by
    frame, when the names of the definition are distinct. *)
Lemma run_button config b frames st prev :
  names_distinct config →
  b ∈ default [] (buttons config) →
  get st (button_name b) = VBool prev →
  events_of (button_name b) <$> (run config frames st).2
  = edges (button_name b) prev (pressed b <$> frames).
Proof.
  intros Hnd Hb. revert st prev.
  induction frames as [|data frames IH]; intros st prev Hget; [done |].
  simpl.
  pose proof (get_bool_anchored _ _ _ Hget) as Hanch.
  destruct (onControllerFrame_button config data b st Hnd Hb) as [Hg He];
    [by right |].
  destruct (onControllerFrame config data st) as [st1 ev] eqn:Hframe.
  simpl in Hg, He.
  specialize (IH st1 (pressed b data)).
  destruct (run config frames st1) as [st2 evs]; simpl in *.
  rewrite (button_cb_later _ _ _ prev) in Hg, He by done; simpl in Hg, He.
  rewrite get_put in Hg by apply Hanch. rewrite He. f_equal. by apply IH.
Qed.




(** ** The status sub-pass *)

(** The index loop of the status lookup finds what a search for the
    first matching entry finds. *)
Lemma scan_states_find sts byte fuel i :
  fuel = length (drop i sts) →
  scan_states sts byte fuel i
  = (λ p, state p.2) <$> list_find (λ e, value e = byte) (drop i sts).
Proof.
  revert i; induction fuel as [|fuel IH]; intros i Hlen; simpl.
  - symmetry in Hlen. apply length_zero_iff_nil in Hlen. by rewrite Hlen.
  - destruct (sts !! i) as [e|] eqn:Hi.
    + rewrite (drop_S _ _ _ Hi) in Hlen |- *; simpl in *.
      case_bool_decide; case_decide; try done; simpl.
      rewrite IH by lia.
      by destruct (list_find _ (drop (S i) sts)) as [[j e']|].
    + apply lookup_ge_None in Hi. rewrite drop_ge in Hlen by done.
      discriminate.
Qed.

Lemma resolve_label_find sts byte :
  resolve_label sts byte
  = (λ p, state p.2) <$> list_find (λ e, value e = byte) sts.
Proof. unfold resolve_label. by rewrite scan_states_find. Qed.

Lemma resolve_label_first sts byte i e :
  sts !! i = Some e → value e = byte →
  (∀ j e', j < i → sts !! j = Some e' → value e' ≠ byte) →
  resolve_label sts byte = Some (state e).
Proof.
  intros Hi He Hbefore. rewrite resolve_label_find.
  assert (Hfind : list_find (λ e, value e = byte) sts = Some (i, e)).
  { apply list_find_Some. repeat split; try done.
    intros j y Hj Hlt. by apply (Hbefore j). }
  by rewrite Hfind.
Qed.

Lemma resolve_label_Some sts byte :
  is_Some (resolve_label sts byte) ↔ ∃ e, e ∈ sts ∧ value e = byte.
Proof.
  rewrite resolve_label_find, fmap_is_Some. split.
  - intros [[i e] Hfind]. apply list_find_Some in Hfind as (Hi & He & _).
    exists e. split; [| done]. apply list_elem_of_lookup. by exists i.
  - intros (e & Hin & He).
    by apply (list_find_elem_of (λ e, value e = byte) sts e).
Qed.

Lemma resolve_label_None sts byte :
  resolve_label sts byte = None ↔ ∀ e, e ∈ sts → value e ≠ byte.
Proof.
  rewrite resolve_label_find, fmap_None, list_find_None, Forall_forall.
  done.
Qed.

Lemma status_cb_stored data s st :
  status_name s ≠ "__proto__" →
  get (status_cb data s st).1 (status_name s)
  = label_val (resolve_label (states s)
                 (JS.and_ff (data_at data (status_pin s)))).
Proof. intros Hk. unfold status_cb; simpl. by rewrite get_put. Qed.

(** C6.  Status lookup tie-break.  For a status and a frame, let [byte]
    be (frame[pin] & 0xFF).  If entry [i] of the states list has
    value = byte and no earlier entry has, the label resolved by the
    sub-pass is the label of entry [i]: it is what the sub-pass assigns
    to the status's name in the state object and, the name being an
    ordinary one, what the object then holds under it; in particular,
    when two entries carry that value, the label of the earlier one is
    taken, whatever follows it. *)
Theorem status_first_match_wins data s st i e :
  let byte := JS.and_ff (data_at data (status_pin s)) in
  states s !! i = Some e →
  value e = byte →
  (∀ j e', j < i → states s !! j = Some e' → value e' ≠ byte) →
  resolve_label (states s) byte = Some (state e)
  ∧ (status_cb data s st).1 = put st (status_name s) (VStr (state e))
  ∧ (status_name s ≠ "__proto__" →
     get (status_cb data s st).1 (status_name s) = VStr (state e))
  ∧ (∀ j e', i < j → states s !! j = Some e' → value e' = byte →
       resolve_label (states s) byte = Some (state e)).
Proof.
  intros byte Hi He Hbefore.
  assert (Hres : resolve_label (states s) byte = Some (state e))
    by (by apply (resolve_label_first _ _ i)).
  split; [done |]. split; [| split; [| done]].
  - unfold status_cb; simpl. fold byte. by rewrite Hres.
  - intros Hk. rewrite status_cb_stored by done. fold byte. by rewrite Hres.
Qed.

Lemma status_first_match_wins_witness :
  resolve_label
    [mkStatusState 0 "off"; mkStatusState 1 "on"; mkStatusState 1 "always"]
    1 = Some "on".
Proof.
  refine (proj1 (status_first_match_wins
                   [x00; x00; x00; x00; x00; x01]
                   (mkStatusConfig 5 "mode"
                      [mkStatusState 0 "off"; mkStatusState 1 "on";
                       mkStatusState 1 "always"])
                   fresh 1 (mkStatusState 1 "on") eq_refl eq_refl _)).
  intros [|[|j]] e' Hlt Hj; [| lia | lia].
  injection Hj as <-. discriminate.
Defined.

(** C7.  Status state invariant, on the code.  The claim that after any
    frame the stored entry of every status equals the label resolved
    from that frame fails for a status called "__proto__": the
    assignment of a string to that name goes to the setter inherited
    from [Object.prototype], which ignores it, so the state object holds
    no label although one matched, and every frame reports the change
    again. *)
Theorem proto_status_keeps_no_label :
  names_distinct proto_status
  ∧ label_at (mkStatusConfig 0 "__proto__"
                [mkStatusState 0 "off"; mkStatusState 1 "on"]) [x00]
    = Some "off"
  ∧ get (onControllerFrame proto_status [x00] fresh).1 "__proto__" = VObject
  ∧ run proto_status [[x00]; [x00]] fresh
    = (fresh, [[mkEvent "__proto__:change" [VStr "off"]];
               [mkEvent "__proto__:change" [VStr "off"]]]).
Proof.
  split; [decide_by_compute |]. split; [done |]. split; [done |].
  vm_compute. reflexivity.
Qed.

Lemma status_cb_first data s st :
  get st (status_name s) = VUndef →
  (status_cb data s st).2
  = match resolve_label (states s)
            (JS.and_ff (data_at data (status_pin s))) with
    | Some l => [mkEvent (status_name s +:+ ":change") [VStr l]]
    | None => []
    end.
Proof.
  intros Hget. unfold status_cb; simpl. rewrite Hget.
  by destruct (resolve_label _ _).
Qed.

(** C2, as the code has it.  For a definition whose names are distinct
    and which has no stick called "__proto__", and any of its statuses
    that reads as unset in the state object (as on the very first frame,
    for a name that a fresh object does not answer to), processing a
    frame emits for that status exactly one "<name>:change" event,
    carrying the resolved label, when some entry of its states list has
    value = (frame[pin] & 0xFF), and no event when none has: the resolved
    label is then the unset marker, equal to what is read. *)
Theorem status_first_frame config data s st :
  names_distinct config →
  "__proto__" ∉ stick_names config →
  s ∈ default [] (status config) →
  get st (status_name s) = VUndef →
  let byte := JS.and_ff (data_at data (status_pin s)) in
  let emitted :=
    events_of (status_name s) (onControllerFrame config data st).2 in
  (∀ l, resolve_label (states s) byte = Some l →
     emitted = [mkEvent (status_name s +:+ ":change") [VStr l]])
  ∧ ((∃ e, e ∈ states s ∧ value e = byte) → ∃ ev, emitted = [ev])
  ∧ ((∀ e, e ∈ states s → value e ≠ byte) → emitted = []).
Proof.
  intros Hnd Hproto Hs Hundef byte emitted. subst emitted.
  destruct (onControllerFrame_status config data s st Hnd Hs) as [_ Hev];
    [by left |].
  rewrite Hev, status_cb_first by done. fold byte.
  split; [| split].
  - by intros l ->.
  - intros Hex. apply resolve_label_Some in Hex as [l ->]. eauto.
  - intros Hnone. apply resolve_label_None in Hnone. by rewrite Hnone.
Qed.

Lemma status_first_frame_witness :
  events_of "mode"
    (onControllerFrame sample [x00; x00; x00; x00; x00; x01] fresh).2
  = [mkEvent "mode:change" [VStr "on"]].
Proof.
  assert (Hnd : names_distinct sample) by decide_by_compute.
  assert (Hproto : "__proto__" ∉ stick_names sample) by decide_by_compute.
  pose (s := mkStatusConfig 5 "mode"
               [mkStatusState 0 "off"; mkStatusState 1 "on";
                mkStatusState 1 "always"]).
  assert (Hs : s ∈ default [] (status sample)) by decide_by_compute.
  exact (proj1 (status_first_frame sample [x00; x00; x00; x00; x00; x01] s
                  fresh Hnd Hproto Hs eq_refl) "on" eq_refl).
Defined.

(** C2, as stated, fails: on the very first frame of a session a status
    whose states list has no entry for the byte at its pin emits no
    "<name>:change" event. *)
Lemma silent_first_status_frame :
  mkStatusConfig 5 "mode"
    [mkStatusState 0 "off"; mkStatusState 1 "on"; mkStatusState 1 "always"]
    ∈ default [] (status sample)
  ∧ names_distinct sample
  ∧ events_of "mode"
      (onControllerFrame sample [x00; x00; x00; x00; x00; x07] fresh).2 = []
  ∧ ¬ (∀ config data s,
         names_distinct config → s ∈ default [] (status config) →
         ∃ ev, events_of (status_name s)
                 (onControllerFrame config data fresh).2
               = [ev]).
Proof.
  assert (Hs : mkStatusConfig 5 "mode"
                 [mkStatusState 0 "off"; mkStatusState 1 "on";
                  mkStatusState 1 "always"] ∈ default [] (status sample))
    by decide_by_compute.
  assert (Hnd : names_distinct sample) by decide_by_compute.
  assert (Hev : events_of "mode"
            (onControllerFrame sample [x00; x00; x00; x00; x00; x07] fresh).2
            = [])
    by (vm_compute; reflexivity).
  split_and!; try done.
  intros Hclaim.
  destruct (Hclaim sample [x00; x00; x00; x00; x00; x07] _ Hnd Hs) as [ev Hone].
  simpl status_name in Hone. rewrite Hev in Hone. discriminate.
Qed.

(** C10.  A status with an empty states list, on the code.  The claim
    that such a status never causes a change event fails for a status
    called "valueOf": the state object [{}] answers to that name with an
    inherited method, which differs from the unset marker, so the first
    frame of the session emits "valueOf:change" carrying undefined; only
    then does the object own an unset entry under that name. *)
Theorem valueOf_status_changes_at_once :
  names_distinct valueOf_status
  ∧ states (mkStatusConfig 0 "valueOf" []) = []
  ∧ get fresh "valueOf" = VObject
  ∧ (run valueOf_status [[x00]; [x00]] fresh).2
    = [[mkEvent "valueOf:change" [VUndef]]; []].
Proof.
  split; [decide_by_compute |]. split; [done |]. split; [done |].
  vm_compute. reflexivity.
Qed.

(** ** The definition loader *)

(** C3, as the code has it.  When the definition file exists, loading
    succeeds and the loaded definition's vendorID is options.vendorID
    when that is supplied and not 0, and the stored definition's vendorID
    when it is absent or 0; independently the same holds for productID;
    the field lists are those of the stored definition. *)
Theorem loadConfiguration_overrides fs type options stored :
  definitions fs !! (type +:+ ".json") = Some stored →
  ∃ fs' config,
    loadConfiguration fs type options = inr (fs', config)
    ∧ vendorID config
      = match opt_vendorID options with
        | Some v => if bool_decide (v = 0%Z) then vendorID stored else v
        | None => vendorID stored
        end
    ∧ productID config
      = match opt_productID options with
        | Some v => if bool_decide (v = 0%Z) then productID stored else v
        | None => productID stored
        end
    ∧ joysticks config = joysticks stored
    ∧ buttons config = buttons stored
    ∧ status config = status stored
    ∧ definitions fs' !! (type +:+ ".json") = Some config.
Proof.
  intros Hstored. unfold loadConfiguration. rewrite Hstored.
  eexists _, _. split; [done |].
  destruct options as [[v|] [p|]]; simpl;
    repeat case_bool_decide; simpl; rewrite ?lookup_insert_eq; done.
Qed.

Lemma loadConfiguration_overrides_witness :
  ∃ fs' config,
    loadConfiguration sample_fs "logitech/gamepadf310"
      (mkOptions (Some 1118%Z) None) = inr (fs', config)
    ∧ vendorID config = 1118%Z
    ∧ productID config = 49693%Z.
Proof.
  destruct (loadConfiguration_overrides sample_fs "logitech/gamepadf310"
              (mkOptions (Some 1118%Z) None) sample_definition eq_refl)
    as (fs' & config & Hload & Hv & Hp & _).
  exists fs', config. split; [exact Hload |]. split; [exact Hv | exact Hp].
Defined.

(** C3, as stated, fails: an explicitly supplied vendorID of 0 is not
    applied, the loaded definition keeps the stored vendorID. *)
Lemma loadConfiguration_zero_override_ignored :
  ∃ fs' config,
    opt_vendorID (mkOptions (Some 0%Z) None) = Some 0%Z
    ∧ loadConfiguration sample_fs "logitech/gamepadf310"
        (mkOptions (Some 0%Z) None) = inr (fs', config)
    ∧ vendorID config = 1133%Z
    ∧ vendorID config ≠ 0%Z.
Proof.
  eexists _, _. split; [reflexivity |].
  split; [vm_compute; reflexivity |].
  split; [reflexivity | discriminate].
Qed.

(** The loaded definition is the cached module object: an override
    stays in the store and is seen by a later load without options. *)
Lemma loaded_definition_is_shared fs type options fs1 config :
  loadConfiguration fs type options = inr (fs1, config) →
  loadConfiguration fs1 type (mkOptions None None) = inr (fs1, config).
Proof.
  unfold loadConfiguration.
  destruct (definitions fs !! (type +:+ ".json")) as [stored|] eqn:Hst;
    [| discriminate].
  intros Hload. injection Hload as <- <-. simpl.
  rewrite lookup_insert_eq. by rewrite insert_insert_eq.
Qed.

(** ** The configuration resolver *)

Lemma contains_char_chars c s : JS.contains_char c s = true ↔ c ∈ chars s.
Proof.
  unfold JS.contains_char. induction s as [|b s IH]; simpl.
  - split; [discriminate | by intros ?%elem_of_nil].
  - destruct (ascii_dec c b) as [-> | Hne].
    + assert (Hpre : String.prefix "" s = true) by (by destruct s).
      rewrite Hpre. split; [intros _; left | done].
    + rewrite elem_of_cons.
      destruct (String.index 0 (String c "") s); split; try done.
      * intros _. right. by apply IH.
      * intros [? | Hin]; [done |]. by apply IH in Hin.
Qed.

Lemma matches_device_false tmpConfig devices :
  (∀ d, d ∈ devices →
     ¬ (vendorID tmpConfig = vendorId d ∧ productID tmpConfig = productId d)) →
  matches_device tmpConfig devices = false.
Proof.
  induction devices as [|d devices IH]; intros Hno; [done |]. simpl.
  case_bool_decide as Hv; case_bool_decide as Hp; simpl;
    try (apply IH; intros d' Hd'; apply Hno; by right).
  exfalso. apply (Hno d); [left | done].
Qed.

Lemma scan_files_none fs devices type files :
  (∀ file, file ∈ files →
     ∃ tmpConfig,
       definitions fs !! (type +:+ "/" +:+ file) = Some tmpConfig
       ∧ ∀ d, d ∈ devices →
           ¬ (vendorID tmpConfig = vendorId d
              ∧ productID tmpConfig = productId d)) →
  scan_files fs devices type files = inr (false, type).
Proof.
  induction files as [|file files IH]; intros Hno; [done |]. simpl.
  destruct (Hno file) as (tmpConfig & Hload & Hdev); [left |].
  unfold require. rewrite Hload, (matches_device_false _ _ Hdev).
  apply IH. intros f Hf. apply Hno. by right.
Qed.

(** C8.  Resolution errors.  For an identifier without the separator
    "/": resolution fails with ConfigurationNotFound when the vendor
    directory does not exist, and with DeviceNotDetected when it exists
    and, for every definition file in it, no attached device has that
    definition's (vendorID, productID) pair.  An identifier that contains
    the separator resolves to itself, without error. *)
Theorem resolve_errors fs devices type :
  ("/"%char ∉ chars type →
     directories fs !! type = None →
     resolve fs devices type = inl (ConfigurationNotFound type))
  ∧ ("/"%char ∉ chars type →
     ∀ files, directories fs !! type = Some files →
       (∀ file, file ∈ files →
          ∃ tmpConfig,
            definitions fs !! (type +:+ "/" +:+ file) = Some tmpConfig
            ∧ ∀ d, d ∈ devices →
                ¬ (vendorID tmpConfig = vendorId d
                   ∧ productID tmpConfig = productId d)) →
       resolve fs devices type = inl (DeviceNotDetected type))
  ∧ ("/"%char ∈ chars type → resolve fs devices type = inr type).
Proof.
  unfold resolve, detectControllerConfiguration, hasProductId.
  split; [| split].
  - intros Hbare Hdir.
    destruct (JS.contains_char "/" type) eqn:Hc;
      [by apply contains_char_chars in Hc |].
    by rewrite Hdir.
  - intros Hbare files Hdir Hno.
    destruct (JS.contains_char "/" type) eqn:Hc;
      [by apply contains_char_chars in Hc |].
    by rewrite Hdir, scan_files_none.
  - intros Hsep. apply contains_char_chars in Hsep. by rewrite Hsep.
Qed.

Lemma resolve_errors_witness :
  resolve sample_fs [mkDevice 1133 49693] "saitek"
    = inl (ConfigurationNotFound "saitek")
  ∧ resolve sample_fs [mkDevice 1133 49694; mkDevice 1118 49693] "logitech"
    = inl (DeviceNotDetected "logitech")
  ∧ resolve sample_fs [] "logitech/gamepadf310" = inr "logitech/gamepadf310".
Proof.
  split; [| split].
  - apply (proj1 (resolve_errors sample_fs [mkDevice 1133 49693] "saitek"));
      [decide_by_compute | reflexivity].
  - apply (proj1 (proj2 (resolve_errors sample_fs
                           [mkDevice 1133 49694; mkDevice 1118 49693]
                           "logitech")))
      with (files := ["gamepadf310.json"]);
      [decide_by_compute | reflexivity |].
    intros file Hfile. apply list_elem_of_singleton in Hfile as ->.
    exists sample_definition. split; [reflexivity |].
    intros d Hd [Hv Hp].
    apply elem_of_cons in Hd as [-> | Hd]; [discriminate Hp |].
    apply list_elem_of_singleton in Hd as ->. discriminate Hv.
  - apply (proj2 (proj2 (resolve_errors sample_fs [] "logitech/gamepadf310"))).
    decide_by_compute.
Defined.

(** ** Independence of the three sub-passes *)

(** C9.  Sub-pass independence, on the code.  The claim that, with
    pairwise distinct names, no sub-pass affects the fields of another
    fails for a stick called "__proto__": its pair is assigned through
    the setter inherited from [Object.prototype], which makes the pair
    the prototype of the state object.  A button called "x" and a status
    called "y" then read the stick's bytes under their names: on the first
    frame of the session the frame emits "x:release" and "y:change",
    while the button and status sub-passes on the state the frame started
    from emit nothing. *)
Theorem proto_stick_reaches_other_fields :
  names_distinct proto_stick
  ∧ (processButtons proto_stick [x0a; x14; x00] fresh).2 = []
  ∧ (processStatus proto_stick [x0a; x14; x00] fresh).2 = []
  ∧ get (processJoysticks proto_stick [x0a; x14; x00] fresh).1 "x"
    = VNum 10
  ∧ get (processJoysticks proto_stick [x0a; x14; x00] fresh).1 "y"
    = VNum 20
  ∧ (onControllerFrame proto_stick [x0a; x14; x00] fresh).2
    = [mkEvent "__proto__:move"
         [VStick (mkStick (Some 10%Z) (Some 20%Z))];
       mkEvent "x:release" []; mkEvent "y:change" [VUndef]].
Proof.
  split; [decide_by_compute |].
  split_and!; vm_compute; reflexivity.
Qed.

(** ** Scenarios *)

(** Stick "left" at pins (2, 3): a baseline frame, the same frame again,
    then a change of y. *)
Example scenario_left_stick :
  (run sample_definition
     [[x00; x00; x0a; x14; x00]; [x00; x00; x0a; x14; x00];
      [x00; x00; x0a; x15; x00]] fresh).2
  = [[]; [];
     [mkEvent "left:move" [VStick (mkStick (Some 10%Z) (Some 21%Z))]]].
Proof. vm_compute. reflexivity. Qed.

(** Button "fire" at pin 4 with pressed-value 1, byte 4 being 1, 1, 0, 1
    from the start of a session. *)
Example scenario_fire_button :
  (run sample_definition
     [[x00; x00; x0a; x14; x01]; [x00; x00; x0a; x14; x01];
      [x00; x00; x0a; x14; x00]; [x00; x00; x0a; x14; x01]] fresh).2
  = [[mkEvent "fire:press" []]; []; [mkEvent "fire:release" []];
     [mkEvent "fire:press" []]].
Proof. vm_compute. reflexivity. Qed.

(** A pin outside the frame reads as [undefined], which masks to 0. *)
Example scenario_short_frame :
  (processButtons
     (mkDefinition 1 1 None (Some [mkButtonConfig 0 9 "idle"]) None)
     [x01] fresh).2
  = [mkEvent "idle:press" []].
Proof. vm_compute. reflexivity. Qed.

(** A bare vendor name is narrowed to the definition of an attached
    device, which is then loaded. *)
Example scenario_connect :
  connect sample_fs [mkDevice 1 2; mkDevice 1133 49693] "logitech"
    (mkOptions None None)
  = inr ("logitech/gamepadf310", sample_fs, sample_definition).
Proof. vm_compute. reflexivity. Qed.

(** * Further properties of the frame decoder *)

Local Set Warnings "-clear-no-such-hyp".

(** ** What a frame can emit *)

Lemma forEach_events_at {A} (cb : A → pass) l st e :
  e ∈ (forEach cb l st).2 → ∃ a st', a ∈ l ∧ e ∈ (cb a st').2.
Proof.
  revert st; induction l as [|a l IH]; intros st; simpl.
  - by intros ?%elem_of_nil.
  - destruct (cb a st) as [st1 ev1] eqn:Hcb.
    destruct (forEach cb l st1) as [st2 ev2] eqn:Hrest; simpl.
    intros [He | He]%elem_of_app.
    + exists a, st. split; [left | by rewrite Hcb].
    + destruct (IH st1) as (b & st' & Hb & Hin); [by rewrite Hrest |].
      exists b, st'. split; [by right | done].
Qed.

Lemma forEach_length {A} (cb : A → pass) l st :
  (∀ a st', length (cb a st').2 ≤ 1) →
  length (forEach cb l st).2 ≤ length l.
Proof.
  intros Hone. revert st; induction l as [|a l IH]; intros st; simpl; [lia |].
  specialize (Hone a st). destruct (cb a st) as [st1 ev1]; simpl in Hone.
  specialize (IH st1). destruct (forEach cb l st1) as [st2 ev2]; simpl in *.
  rewrite length_app. lia.
Qed.

Lemma stick_cb_event data s st e :
  e ∈ (stick_cb data s st).2 →
  e = mkEvent (stick_name s +:+ ":move") [VStick (pair_at s data)].
Proof.
  unfold stick_cb, pair_at. repeat case_match; simpl; intros He;
    try (by apply elem_of_nil in He).
  by apply list_elem_of_singleton in He.
Qed.

Lemma button_cb_event data b st e :
  e ∈ (button_cb data b st).2 →
  (e = mkEvent (button_name b +:+ ":press") [] ∧ pressed b data = true)
  ∨ (e = mkEvent (button_name b +:+ ":release") []
     ∧ pressed b data = false).
Proof.
  unfold button_cb. fold (pressed b data).
  destruct (pressed b data); repeat case_match; simpl; intros He;
    try (by apply elem_of_nil in He);
    apply list_elem_of_singleton in He as ->; auto.
Qed.

Lemma status_cb_event data s st e :
  e ∈ (status_cb data s st).2 →
  e = mkEvent (status_name s +:+ ":change") [label_val (label_at s data)].
Proof.
  unfold status_cb, label_at; simpl. case_match; intros He;
    [by apply list_elem_of_singleton in He | by apply elem_of_nil in He].
Qed.

(** X1.  Every event of a frame belongs to a configured field and says
    what the frame holds: a move carries the pair at the pins of a
    configured stick, a press comes from a configured button that decodes
    as pressed in this frame and a release from one that decodes as
    released, a change carries the label the frame resolves to for a
    configured status.  Nothing else is ever emitted, whatever the state
    and the frame. *)
Theorem frame_events_provenance config data st e :
  e ∈ (onControllerFrame config data st).2 →
  (∃ s, s ∈ default [] (joysticks config)
        ∧ e = mkEvent (stick_name s +:+ ":move") [VStick (pair_at s data)])
  ∨ (∃ b, b ∈ default [] (buttons config)
          ∧ ((e = mkEvent (button_name b +:+ ":press") []
              ∧ pressed b data = true)
             ∨ (e = mkEvent (button_name b +:+ ":release") []
                ∧ pressed b data = false)))
  ∨ (∃ s, s ∈ default [] (status config)
          ∧ e = mkEvent (status_name s +:+ ":change")
                  [label_val (label_at s data)]).
Proof.
  rewrite onControllerFrame_passes; simpl.
  rewrite processJoysticks_forEach, processButtons_forEach,
    processStatus_forEach.
  intros [He | [He | He]%elem_of_app]%elem_of_app;
    apply forEach_events_at in He as (a & st' & Ha & He).
  - left. exists a. split; [done |]. by apply stick_cb_event in He.
  - right; left. exists a. split; [done |]. by apply button_cb_event in He.
  - right; right. exists a. split; [done |]. by apply status_cb_event in He.
Qed.

Lemma frame_events_provenance_witness :
  (∃ s, s ∈ default [] (joysticks sample)
        ∧ mkEvent "fire:press" []
          = mkEvent (stick_name s +:+ ":move")
              [VStick (pair_at s [x00; x00; x00; x00; x01; x07])])
  ∨ (∃ b, b ∈ default [] (buttons sample)
          ∧ ((mkEvent "fire:press" []
              = mkEvent (button_name b +:+ ":press") []
              ∧ pressed b [x00; x00; x00; x00; x01; x07] = true)
             ∨ (mkEvent "fire:press" []
                = mkEvent (button_name b +:+ ":release") []
                ∧ pressed b [x00; x00; x00; x00; x01; x07] = false)))
  ∨ (∃ s, s ∈ default [] (status sample)
          ∧ mkEvent "fire:press" []
            = mkEvent (status_name s +:+ ":change")
                [label_val (label_at s [x00; x00; x00; x00; x01; x07])]).
Proof.
  apply (frame_events_provenance sample [x00; x00; x00; x00; x01; x07] fresh).
  decide_by_compute.
Defined.

(** X2.  A frame emits at most one event per configured field. *)
Theorem frame_events_bounded config data st :
  length (onControllerFrame config data st).2
  ≤ length (default [] (joysticks config))
    + length (default [] (buttons config))
    + length (default [] (status config)).
Proof.
  rewrite onControllerFrame_passes; simpl.
  rewrite processJoysticks_forEach, processButtons_forEach,
    processStatus_forEach, !length_app.
  pose proof (forEach_length (stick_cb data) (default [] (joysticks config)) st)
    as H1.
  pose proof (forEach_length (button_cb data) (default [] (buttons config))
                (forEach (stick_cb data) (default [] (joysticks config)) st).1)
    as H2.
  pose proof (forEach_length (status_cb data) (default [] (status config))
                (forEach (button_cb data) (default [] (buttons config))
                   (forEach (stick_cb data)
                      (default [] (joysticks config)) st).1).1)
    as H3.
  assert (length (forEach (stick_cb data) (default [] (joysticks config)) st).2
          ≤ length (default [] (joysticks config))) as H1'.
  { apply H1. intros a st'. unfold stick_cb. repeat case_match; simpl; lia. }
  assert (length (forEach (button_cb data) (default [] (buttons config))
                    (forEach (stick_cb data)
                       (default [] (joysticks config)) st).1).2
          ≤ length (default [] (buttons config))) as H2'.
  { apply H2. intros a st'. unfold button_cb. repeat case_match; simpl; lia. }
  assert (length (forEach (status_cb data) (default [] (status config))
                    (forEach (button_cb data) (default [] (buttons config))
                       (forEach (stick_cb data)
                          (default [] (joysticks config)) st).1).1).2
          ≤ length (default [] (status config))) as H3'.
  { apply H3. intros a st'. unfold status_cb. repeat case_match; simpl; lia. }
  lia.
Qed.

(** ** Which entries a frame writes *)

Lemma forEach_anchors {A} (key : A → string) (cb : A → pass) l st a :
  (∀ b st' k, anchored st' k → anchored (cb b st').1 k) →
  (∀ st', anchored (cb a st').1 (key a)) →
  a ∈ l → anchored (forEach cb l st).1 (key a).
Proof.
  intros Hkeep Hput. revert st.
  induction l as [|b l IH]; intros st Ha; [by apply elem_of_nil in Ha |].
  simpl. destruct (cb b st) as [st1 ev1] eqn:Hcb.
  destruct (forEach cb l st1) as [st2 ev2] eqn:Hrest; simpl.
  apply elem_of_cons in Ha as [-> | Ha].
  - pose proof (forEach_keep cb Hkeep l st1 (key b)) as Hk.
    rewrite Hrest in Hk. apply Hk.
    specialize (Hput st). by rewrite Hcb in Hput.
  - specialize (IH st1 Ha). by rewrite Hrest in IH.
Qed.

(** X3.  A frame writes under configured names only.  Whatever the
    state and the frame: an own property of the state object under a
    name that is no configured field is left exactly as it was; no own
    property is removed; the prototype of the state object stays what it
    is unless a stick is called "__proto__", and then every name that is
    no configured field reads as before; and after the frame every
    configured button and status, unless called "__proto__", has an own
    entry. *)
Theorem frame_writes_configured_names config data st :
  let st' := (onControllerFrame config data st).1 in
  (∀ k, k ∉ field_names config → own st' !! k = own st !! k)
  ∧ (∀ k, anchored st k → anchored st' k)
  ∧ ("__proto__" ∉ stick_names config →
     proto st' = proto st
     ∧ ∀ k, k ∉ field_names config → get st' k = get st k)
  ∧ (∀ k, k ∈ button_names config ++ status_names config →
       k ≠ "__proto__" → anchored st' k).
Proof.
  intros st'. subst st'. rewrite onControllerFrame_passes; simpl.
  assert (Hown : ∀ k, k ∉ field_names config →
    own (processStatus config data
           (processButtons config data
              (processJoysticks config data st).1).1).1 !! k = own st !! k).
  { intros k Hk. unfold field_names in Hk.
    rewrite !not_elem_of_app in Hk. destruct Hk as (Hs & Hb & Ht).
    rewrite processStatus_own_frame, processButtons_own_frame by done.
    by apply processJoysticks_own_frame. }
  assert (Hkeep : ∀ st0 k, anchored st0 k →
    anchored (processStatus config data st0).1 k).
  { intros st0 k Ha. rewrite processStatus_forEach.
    by apply (forEach_keep (status_cb data) (status_cb_keep data)). }
  split; [done |]. split; [| split].
  - intros k Ha. by apply Hkeep, processButtons_keep, processJoysticks_keep.
  - intros Hproto.
    assert (Hp : proto (processStatus config data
                   (processButtons config data
                      (processJoysticks config data st).1).1).1 = proto st).
    { rewrite processStatus_forEach, processButtons_forEach,
        processJoysticks_forEach.
      rewrite (forEach_proto (status_cb data) (λ _, True)
                 (λ s st _, status_cb_proto data s st)) by apply all_quiet.
      rewrite (forEach_proto (button_cb data) (λ _, True)
                 (λ b st _, button_cb_proto data b st)) by apply all_quiet.
      apply (forEach_proto (stick_cb data) (λ s, stick_name s ≠ "__proto__")
               (stick_cb_proto data)).
      by apply sticks_quiet. }
    split; [done |]. intros k Hk. apply get_frame_eq; [by apply Hown | done].
  - intros k [Hk | Hk]%elem_of_app Hplain.
    + apply Hkeep. rewrite processButtons_forEach.
      apply list_elem_of_fmap in Hk as (b & -> & Hb).
      apply (forEach_anchors button_name); [apply button_cb_keep | | done].
      intros st0. unfold button_cb. case_match; simpl; by apply anchored_put.
    + rewrite processStatus_forEach.
      apply list_elem_of_fmap in Hk as (s & -> & Hs).
      apply (forEach_anchors status_name); [apply status_cb_keep | | done].
      intros st0. unfold status_cb; simpl. by apply anchored_put.
Qed.

(** ** Sticks along a run *)

Lemma stick_cb_step data s st prev :
  get st (stick_name s) = stick_entry prev →
  get (stick_cb data s st).1 (stick_name s) = VStick (pair_at s data)
  ∧ (stick_cb data s st).2
    = match prev with
      | Some q =>
          if bool_decide (q = pair_at s data) then []
          else [mkEvent (stick_name s +:+ ":move") [VStick (pair_at s data)]]
      | None => []
      end.
Proof.
  intros Hget. destruct prev as [q|]; simpl in Hget.
  - case_bool_decide as Heq.
    + subst q. rewrite (stick_cb_same _ _ _ (pair_at s data)) by done.
      by simpl.
    + rewrite (stick_cb_moved _ _ _ q); simpl;
        [by rewrite get_put_stick | done |].
      destruct q as [qx qy]. unfold pair_at in Heq. simpl.
      destruct (decide (qx = data_at data (x_pin s))) as [-> | Hx];
        [| by left].
      right. intros ->. by apply Heq.
  - rewrite stick_cb_fresh by done; simpl. by rewrite get_put_stick.
Qed.

(** X4.  The stored pair of a stick is always that of the last frame.
    For a definition with distinct field names and no stick called
    "__proto__", and a stick that reads as unset or as a pair, after a
    frame the stick reads as the pair the frame holds at its pins,
    whether or not a move was reported. *)
Theorem stick_entry_is_last_frame config data s st prev :
  names_distinct config →
  "__proto__" ∉ stick_names config →
  s ∈ default [] (joysticks config) →
  get st (stick_name s) = stick_entry prev →
  get (onControllerFrame config data st).1 (stick_name s)
  = VStick (pair_at s data).
Proof.
  intros Hnd Hproto Hs Hget.
  destruct (onControllerFrame_stick config data s st Hnd Hs) as [Hg _];
    [by left |].
  rewrite Hg. by apply (stick_cb_step _ _ _ prev).
Qed.

Lemma stick_entry_is_last_frame_witness :
  get (onControllerFrame sample [x01; x02; x0a; x14; x00; x00]
         (put fresh "left" (VStick (mkStick (Some 10%Z) (Some 20%Z))))).1
      "left"
  = VStick (mkStick (Some 10%Z) (Some 20%Z)).
Proof.
  assert (Hnd : names_distinct sample) by decide_by_compute.
  assert (Hproto : "__proto__" ∉ stick_names sample) by decide_by_compute.
  assert (Hs : mkStickConfig "left" 2 3 ∈ default [] (joysticks sample))
    by decide_by_compute.
  exact (stick_entry_is_last_frame sample [x01; x02; x0a; x14; x00; x00]
           (mkStickConfig "left" 2 3)
           (put fresh "left" (VStick (mkStick (Some 10%Z) (Some 20%Z))))
           (Some (mkStick (Some 10%Z) (Some 20%Z))) Hnd Hproto Hs eq_refl).
Defined.

(** X5.  Along any sequence of frames, the move events of a stick are
    exactly the differences between consecutive frames.  For a definition
    with distinct field names and no stick called "__proto__", and a
    stick that reads as unset or as a pair: the first frame of a stick
    that reads as unset reports nothing, and every later frame reports
    one "<name>:move" with its pair when that pair differs from the pair
    of the frame before, and nothing when it is the same. *)
Theorem stick_moves_along_run config s frames st prev :
  names_distinct config →
  "__proto__" ∉ stick_names config →
  s ∈ default [] (joysticks config) →
  get st (stick_name s) = stick_entry prev →
  events_of (stick_name s) <$> (run config frames st).2
  = moves (stick_name s) prev (pair_at s <$> frames).
Proof.
  intros Hnd Hproto Hs. revert st prev.
  induction frames as [|data frames IH]; intros st prev Hget; [done |].
  simpl.
  destruct (onControllerFrame_stick config data s st Hnd Hs) as [Hg He];
    [by left |].
  destruct (stick_cb_step data s st prev Hget) as [Hstored Hevents].
  rewrite Hstored in Hg. rewrite Hevents in He.
  destruct (onControllerFrame config data st) as [st1 ev]; simpl in Hg, He.
  specialize (IH st1 (Some (pair_at s data)) Hg).
  destruct (run config frames st1) as [st2 evs]; simpl in *.
  rewrite He. by f_equal.
Qed.

Lemma stick_moves_along_run_witness :
  events_of "left"
    <$> (run sample
           [[x00; x00; x0a; x14]; [x00; x00; x0a; x14];
            [x00; x00; x0a; x15]] fresh).2
  = [[]; [];
     [mkEvent "left:move" [VStick (mkStick (Some 10%Z) (Some 21%Z))]]].
Proof.
  assert (Hnd : names_distinct sample) by decide_by_compute.
  assert (Hproto : "__proto__" ∉ stick_names sample) by decide_by_compute.
  assert (Hs : mkStickConfig "left" 2 3 ∈ default [] (joysticks sample))
    by decide_by_compute.
  exact (stick_moves_along_run sample (mkStickConfig "left" 2 3)
           [[x00; x00; x0a; x14]; [x00; x00; x0a; x14];
            [x00; x00; x0a; x15]] fresh None Hnd Hproto Hs eq_refl).
Defined.

(** ** Buttons and statuses along a run *)

(** X6.  From the start of a session, the events of a button are the
    edges of its decoded states, counted from released.  For a definition
    with distinct field names and no stick called "__proto__", and a
    button that reads as unset (as a fresh state object does for a name it
    does not inherit), any sequence of frames reports a press on each
    frame that decodes as pressed after a released one or at the very
    start, a release on each frame that decodes as released after a
    pressed one, and nothing else. *)
Theorem button_edges_from_start config b frames st :
  names_distinct config →
  "__proto__" ∉ stick_names config →
  b ∈ default [] (buttons config) →
  get st (button_name b) = VUndef →
  events_of (button_name b) <$> (run config frames st).2
  = edges (button_name b) false (pressed b <$> frames).
Proof.
  intros Hnd Hproto Hb Hget. destruct frames as [|data frames]; [done |].
  simpl.
  destruct (onControllerFrame_button config data b st Hnd Hb) as [Hg He];
    [by left |].
  rewrite button_cb_first in Hg, He by done; simpl in Hg, He.
  rewrite get_put in Hg by (by apply get_undef_plain in Hget).
  destruct (onControllerFrame config data st) as [st1 ev]; simpl in Hg, He.
  pose proof (run_button config b frames st1 (pressed b data) Hnd Hb Hg) as Hrun.
  destruct (run config frames st1) as [st2 evs]; simpl in *.
  rewrite He. destruct (pressed b data); by f_equal.
Qed.

Lemma button_edges_from_start_witness :
  events_of "fire"
    <$> (run sample
           [[x00; x00; x00; x00; x01]; [x00; x00; x00; x00; x01];
            [x00; x00; x00; x00; x00]; [x00; x00; x00; x00; x01]] fresh).2
  = [[mkEvent "fire:press" []]; []; [mkEvent "fire:release" []];
     [mkEvent "fire:press" []]].
Proof.
  assert (Hnd : names_distinct sample) by decide_by_compute.
  assert (Hproto : "__proto__" ∉ stick_names sample) by decide_by_compute.
  assert (Hb : mkButtonConfig 1 4 "fire" ∈ default [] (buttons sample))
    by decide_by_compute.
  exact (button_edges_from_start sample (mkButtonConfig 1 4 "fire")
           [[x00; x00; x00; x00; x01]; [x00; x00; x00; x00; x01];
            [x00; x00; x00; x00; x00]; [x00; x00; x00; x00; x01]] fresh
           Hnd Hproto Hb eq_refl).
Defined.

Lemma get_label_plain st k l : get st k = label_val l → k ≠ "__proto__".
Proof.
  unfold get. case_bool_decide; [| done].
  by destruct (proto st), l.
Qed.

Lemma status_cb_step data s st prev :
  get st (status_name s) = label_val prev →
  get (status_cb data s st).1 (status_name s) = label_val (label_at s data)
  ∧ (status_cb data s st).2
    = if bool_decide (prev = label_at s data) then []
      else [mkEvent (status_name s +:+ ":change")
              [label_val (label_at s data)]].
Proof.
  intros Hget. pose proof (get_label_plain _ _ _ Hget) as Hk.
  unfold status_cb, label_at; simpl.
  rewrite get_put, Hget by done. split; [done |].
  destruct prev as [p|], (resolve_label _ _) as [l|]; simpl; try done.
  by repeat case_bool_decide; simplify_eq.
Qed.

(** X7.  Along any sequence of frames, the change events of a status are
    exactly the differences between consecutive resolved labels.  For a
    definition with distinct field names and no stick called
    "__proto__", and a status that reads as the label [prev] or as unset:
    each frame reports one "<name>:change" with its resolved label, or
    with the unset marker when no entry matches, if that differs from the
    label resolved on the frame before, and nothing if it is the same. *)
Theorem status_changes_along_run config s frames st prev :
  names_distinct config →
  "__proto__" ∉ stick_names config →
  s ∈ default [] (status config) →
  get st (status_name s) = label_val prev →
  events_of (status_name s) <$> (run config frames st).2
  = changes (status_name s) prev (label_at s <$> frames).
Proof.
  intros Hnd Hproto Hs. revert st prev.
  induction frames as [|data frames IH]; intros st prev Hget; [done |].
  simpl.
  destruct (onControllerFrame_status config data s st Hnd Hs) as [Hg He];
    [by left |].
  destruct (status_cb_step data s st prev Hget) as [Hstored Hevents].
  rewrite Hstored in Hg. rewrite Hevents in He.
  destruct (onControllerFrame config data st) as [st1 ev]; simpl in Hg, He.
  specialize (IH st1 (label_at s data) Hg).
  destruct (run config frames st1) as [st2 evs]; simpl in *.
  rewrite He. by f_equal.
Qed.

Lemma status_changes_along_run_witness :
  events_of "mode"
    <$> (run sample
           [[x00; x00; x00; x00; x00; x07]; [x00; x00; x00; x00; x00; x01];
            [x00; x00; x00; x00; x00; x01]; [x00; x00; x00; x00; x00; x09]]
           fresh).2
  = [[]; [mkEvent "mode:change" [VStr "on"]]; [];
     [mkEvent "mode:change" [VUndef]]].
Proof.
  assert (Hnd : names_distinct sample) by decide_by_compute.
  assert (Hproto : "__proto__" ∉ stick_names sample) by decide_by_compute.
  pose (s := mkStatusConfig 5 "mode"
               [mkStatusState 0 "off"; mkStatusState 1 "on";
                mkStatusState 1 "always"]).
  assert (Hs : s ∈ default [] (status sample)) by decide_by_compute.
  exact (status_changes_along_run sample s
           [[x00; x00; x00; x00; x00; x07]; [x00; x00; x00; x00; x00; x01];
            [x00; x00; x00; x00; x00; x01]; [x00; x00; x00; x00; x00; x09]]
           fresh None Hnd Hproto Hs eq_refl).
Defined.

(** ** The same frame twice *)

Lemma stick_cb_again data s st st1 :
  get st1 (stick_name s) = get (stick_cb data s st).1 (stick_name s) →
  (stick_cb data s st1).2 = []
  ∧ get (stick_cb data s st1).1 (stick_name s) = get st1 (stick_name s).
Proof.
  intros Hget. unfold stick_cb in Hget.
  destruct (JS.truthy (get st (stick_name s))) eqn:Ht; simpl in Hget.
  - destruct (bool_decide (JS.prop_x (get st (stick_name s)) ≠ _)
              || bool_decide (JS.prop_y (get st (stick_name s)) ≠ _))
      eqn:Hd; simpl in Hget.
    + rewrite get_put_stick in Hget.
      by rewrite (stick_cb_same _ _ _ (pair_at s data)).
    + unfold stick_cb. rewrite Hget, Ht; simpl. by rewrite Hd.
  - rewrite get_put_stick in Hget.
    by rewrite (stick_cb_same _ _ _ (pair_at s data)).
Qed.

Lemma button_cb_again data b st st1 :
  button_name b ≠ "__proto__" →
  get st1 (button_name b) = get (button_cb data b st).1 (button_name b) →
  (button_cb data b st1).2 = []
  ∧ get (button_cb data b st1).1 (button_name b) = get st1 (button_name b).
Proof.
  intros Hk Hget.
  assert (Hst1 : get st1 (button_name b) = VBool (pressed b data)).
  { rewrite Hget. unfold button_cb. fold (pressed b data).
    case_match; simpl; by rewrite get_put. }
  rewrite (button_cb_later _ _ _ (pressed b data)) by done; simpl.
  rewrite get_put by done. by destruct (pressed b data).
Qed.

Lemma status_cb_again data s st st1 :
  status_name s ≠ "__proto__" →
  get st1 (status_name s) = get (status_cb data s st).1 (status_name s) →
  (status_cb data s st1).2 = []
  ∧ get (status_cb data s st1).1 (status_name s) = get st1 (status_name s).
Proof.
  intros Hk Hget. rewrite status_cb_stored in Hget by done.
  fold (label_at s data) in Hget.
  destruct (status_cb_step data s st1 (label_at s data) Hget) as [Hg He].
  rewrite Hg, He, Hget. by rewrite bool_decide_eq_true_2.
Qed.

(** X8.  Processing the same frame a second time is silent.  For a
    definition with distinct field names, none of them "__proto__", any
    state and any frame: when the frame that was just processed is
    processed again, no event at all is emitted and every name reads in
    the state object as before. *)
Theorem same_frame_twice_silent config data st :
  names_distinct config →
  "__proto__" ∉ field_names config →
  let st1 := (onControllerFrame config data st).1 in
  (onControllerFrame config data st1).2 = []
  ∧ ∀ k, get (onControllerFrame config data st1).1 k = get st1 k.
Proof.
  intros Hnd Hplain st1.
  assert (Hproto : "__proto__" ∉ stick_names config).
  { intros Hin. apply Hplain. unfold field_names. apply elem_of_app. by left. }
  assert (Hnames : ∀ k, k ∈ field_names config → k ≠ "__proto__")
    by (by intros k Hk ->).
  assert (Hsticks : ∀ s, s ∈ default [] (joysticks config) →
    events_of (stick_name s) (onControllerFrame config data st1).2 = []
    ∧ get (onControllerFrame config data st1).1 (stick_name s)
      = get st1 (stick_name s)).
  { intros s Hs.
    destruct (onControllerFrame_stick config data s st Hnd Hs) as [Hg _];
      [by left |].
    destruct (onControllerFrame_stick config data s st1 Hnd Hs) as [Hg1 He1];
      [by left |].
    destruct (stick_cb_again data s st st1 Hg) as [Hev Hsame].
    by rewrite Hg1, He1. }
  assert (Hbuttons : ∀ b, b ∈ default [] (buttons config) →
    events_of (button_name b) (onControllerFrame config data st1).2 = []
    ∧ get (onControllerFrame config data st1).1 (button_name b)
      = get st1 (button_name b)).
  { intros b Hb.
    assert (Hk : button_name b ≠ "__proto__").
    { apply Hnames. unfold field_names.
      apply elem_of_app; right; apply elem_of_app; left.
      by apply list_elem_of_fmap_2. }
    destruct (onControllerFrame_button config data b st Hnd Hb) as [Hg _];
      [by left |].
    destruct (onControllerFrame_button config data b st1 Hnd Hb) as [Hg1 He1];
      [by left |].
    destruct (button_cb_again data b st st1 Hk Hg) as [Hev Hsame].
    by rewrite Hg1, He1. }
  assert (Hstatus : ∀ s, s ∈ default [] (status config) →
    events_of (status_name s) (onControllerFrame config data st1).2 = []
    ∧ get (onControllerFrame config data st1).1 (status_name s)
      = get st1 (status_name s)).
  { intros s Hs.
    assert (Hk : status_name s ≠ "__proto__").
    { apply Hnames. unfold field_names.
      apply elem_of_app; right; apply elem_of_app; right.
      by apply list_elem_of_fmap_2. }
    destruct (onControllerFrame_status config data s st Hnd Hs) as [Hg _];
      [by left |].
    destruct (onControllerFrame_status config data s st1 Hnd Hs) as [Hg1 He1];
      [by left |].
    destruct (status_cb_again data s st st1 Hk Hg) as [Hev Hsame].
    by rewrite Hg1, He1. }
  split.
  - apply elem_of_nil_inv. intros e He.
    assert (Hown : ∀ name,
      events_of name (onControllerFrame config data st1).2 = [] →
      ev_name e ∈ event_names name → False).
    { intros name Hnone Hname.
      assert (Hin : e ∈ events_of name (onControllerFrame config data st1).2)
        by (by apply list_elem_of_filter).
      rewrite Hnone in Hin. by apply elem_of_nil in Hin. }
    pose proof He as He'. rewrite onControllerFrame_passes in He'.
    simpl in He'.
    rewrite processJoysticks_forEach, processButtons_forEach,
      processStatus_forEach in He'.
    apply elem_of_app in He' as [He' | He'];
      [| apply elem_of_app in He' as [He' | He']];
      apply forEach_events_at in He' as (a & st' & Ha & He').
    + apply (Hown (stick_name a)); [by apply Hsticks |].
      by apply stick_cb_owned in He'.
    + apply (Hown (button_name a)); [by apply Hbuttons |].
      by apply button_cb_owned in He'.
    + apply (Hown (status_name a)); [by apply Hstatus |].
      by apply status_cb_owned in He'.
  - intros k.
    destruct (decide (k ∈ stick_names config)) as [Hk | Hs].
    { apply list_elem_of_fmap in Hk as (s & -> & Hs). by apply Hsticks. }
    destruct (decide (k ∈ button_names config)) as [Hk | Hb].
    { apply list_elem_of_fmap in Hk as (b & -> & Hb). by apply Hbuttons. }
    destruct (decide (k ∈ status_names config)) as [Hk | Ht].
    { apply list_elem_of_fmap in Hk as (s & -> & Ht). by apply Hstatus. }
    rewrite onControllerFrame_passes; simpl.
    rewrite (proj1 (processStatus_foreign config data _ k Ht)).
    rewrite (proj1 (processButtons_foreign config data _ k Hb)).
    apply processJoysticks_get_foreign; [done | by left].
Qed.

Lemma same_frame_twice_silent_witness :
  (onControllerFrame sample [x01; x02; x0a; x14; x01; x01]
     (onControllerFrame sample [x01; x02; x0a; x14; x01; x01] fresh).1).2
  = [].
Proof.
  assert (Hnd : names_distinct sample) by decide_by_compute.
  assert (Hplain : "__proto__" ∉ field_names sample) by decide_by_compute.
  exact (proj1 (same_frame_twice_silent sample
                  [x01; x02; x0a; x14; x01; x01] fresh Hnd Hplain)).
Defined.

(** ** Bytes, masks and pins outside the frame *)

Lemma and_ff_mod v : JS.and_ff v = (default 0 v mod 256)%Z.
Proof. unfold JS.and_ff. apply (Z.land_ones _ 8). lia. Qed.

Lemma and_ff_range v : (0 ≤ JS.and_ff v ≤ 255)%Z.
Proof.
  rewrite and_ff_mod.
  pose proof (Z.mod_pos_bound (default 0%Z v) 256). lia.
Qed.

Lemma data_at_range data pin v :
  data_at data pin = Some v → (0 ≤ v ≤ 255)%Z.
Proof.
  unfold data_at. case_match; [discriminate |].
  destruct (data !! Z.to_nat pin) as [b|]; simpl; [| discriminate].
  intros [= <-]. pose proof (Byte.to_N_bounded b). lia.
Qed.

Lemma data_at_outside data pin :
  (pin < 0 ∨ Z.of_nat (length data) ≤ pin)%Z → data_at data pin = None.
Proof.
  intros Hout. unfold data_at. case_match eqn:Hneg; [done |].
  apply Z.ltb_ge in Hneg.
  rewrite (proj2 (lookup_ge_None data (Z.to_nat pin))); [done | lia].
Qed.

Lemma data_at_inside data pin :
  (0 ≤ pin < Z.of_nat (length data))%Z → is_Some (data_at data pin).
Proof.
  intros Hin. unfold data_at.
  rewrite (proj2 (Z.ltb_ge pin 0)) by lia.
  apply fmap_is_Some, lookup_lt_is_Some. lia.
Qed.

(** X9.  The mask is the identity on what a frame holds.  A pin inside
    the frame reads a number between 0 and 255, and masking it with 0xFF
    gives that number back: the value a button or status compares against
    is the byte itself. *)
Theorem mask_keeps_frame_bytes data pin :
  (0 ≤ pin < Z.of_nat (length data))%Z →
  ∃ v, data_at data pin = Some v
       ∧ (0 ≤ v ≤ 255)%Z
       ∧ JS.and_ff (data_at data pin) = v.
Proof.
  intros Hin. destruct (data_at_inside data pin Hin) as [v Hv].
  exists v. pose proof (data_at_range _ _ _ Hv) as Hrange.
  repeat split; try done; try lia.
  rewrite Hv, and_ff_mod; simpl. apply Z.mod_small. lia.
Qed.

Lemma mask_keeps_frame_bytes_witness :
  ∃ v, data_at [x00; xff; x10] 1 = Some v
       ∧ (0 ≤ v ≤ 255)%Z
       ∧ JS.and_ff (data_at [x00; xff; x10] 1) = v.
Proof. apply (mask_keeps_frame_bytes [x00; xff; x10] 1). simpl. lia. Defined.

(** X10.  A pin outside the frame reads as 0 for buttons and statuses.
    When the pin of a button lies outside the frame (negative, or at or
    beyond its length), the button decodes as pressed exactly when its
    configured value is 0, and a button that reads as unset then stores
    that state and reports a press when the value is 0 and nothing
    otherwise; a status with such a pin resolves the label configured
    for 0; a stick with such pins that reads as unset stores a pair of
    undefined coordinates and reports nothing. *)
Theorem pin_outside_frame data :
  (∀ b st,
     (button_pin b < 0 ∨ Z.of_nat (length data) ≤ button_pin b)%Z →
     (pressed b data = true ↔ button_value b = 0%Z)
     ∧ (get st (button_name b) = VUndef →
        get (button_cb data b st).1 (button_name b)
        = VBool (bool_decide (button_value b = 0%Z))
        ∧ (button_cb data b st).2
          = if bool_decide (button_value b = 0%Z)
            then [mkEvent (button_name b +:+ ":press") []] else []))
  ∧ (∀ s,
     (status_pin s < 0 ∨ Z.of_nat (length data) ≤ status_pin s)%Z →
     label_at s data = resolve_label (states s) 0)
  ∧ (∀ s st,
     (x_pin s < 0 ∨ Z.of_nat (length data) ≤ x_pin s)%Z →
     (y_pin s < 0 ∨ Z.of_nat (length data) ≤ y_pin s)%Z →
     pair_at s data = mkStick None None
     ∧ (get st (stick_name s) = VUndef →
        get (stick_cb data s st).1 (stick_name s)
        = VStick (mkStick None None)
        ∧ (stick_cb data s st).2 = [])).
Proof.
  split; [| split].
  - intros b st Hout.
    assert (Hp : pressed b data = bool_decide (button_value b = 0%Z)).
    { unfold pressed. rewrite (data_at_outside _ _ Hout).
      apply bool_decide_ext. change (JS.and_ff None) with 0%Z. lia. }
    split.
    + rewrite Hp. apply bool_decide_eq_true.
    + intros Hget. rewrite button_cb_first by done; simpl.
      rewrite get_put by (by apply get_undef_plain in Hget).
      by rewrite Hp.
  - intros s Hout. unfold label_at. by rewrite (data_at_outside _ _ Hout).
  - intros s st Hx Hy.
    assert (Hpair : pair_at s data = mkStick None None).
    { unfold pair_at.
      by rewrite (data_at_outside _ _ Hx), (data_at_outside _ _ Hy). }
    split; [done |]. intros Hget.
    rewrite stick_cb_fresh by done; simpl.
    by rewrite get_put_stick, Hpair.
Qed.

Lemma pin_outside_frame_witness :
  (button_cb [x01; x01] (mkButtonConfig 0 9 "idle") fresh).2
  = [mkEvent "idle:press" []].
Proof.
  refine (proj2 (proj2 (proj1 (pin_outside_frame [x01; x01])
                          (mkButtonConfig 0 9 "idle") fresh _) eq_refl)).
  right. simpl. lia.
Defined.

Lemma edges_released name nows :
  Forall (λ now, now = false) nows →
  Forall (λ evs, evs = []) (edges name false nows).
Proof.
  induction 1 as [|now nows -> _ IH]; simpl; by constructor.
Qed.

(** X11.  A button configured with a value that no byte can take never
    fires.  For a definition with distinct field names and no stick
    called "__proto__", and a button whose value lies outside 0..255, no
    frame decodes as pressed, and if the button reads as unset (as a
    fresh state object does for a name it does not inherit) no sequence
    of frames reports any event of that button. *)
Theorem button_value_outside_bytes_silent config b frames st :
  names_distinct config →
  "__proto__" ∉ stick_names config →
  b ∈ default [] (buttons config) →
  get st (button_name b) = VUndef →
  ¬ (0 ≤ button_value b ≤ 255)%Z →
  (∀ data, pressed b data = false)
  ∧ Forall (λ evs, events_of (button_name b) evs = [])
      (run config frames st).2.
Proof.
  intros Hnd Hproto Hb Hget Hval.
  assert (Hnever : ∀ data, pressed b data = false).
  { intros data. unfold pressed. apply bool_decide_eq_false.
    pose proof (and_ff_range (data_at data (button_pin b))). lia. }
  split; [done |].
  destruct frames as [|data frames]; simpl; [constructor |].
  destruct (onControllerFrame_button config data b st Hnd Hb) as [Hg He];
    [by left |].
  rewrite button_cb_first in Hg, He by done; simpl in Hg, He.
  rewrite get_put in Hg by (by apply get_undef_plain in Hget).
  rewrite Hnever in Hg, He.
  destruct (onControllerFrame config data st) as [st1 ev]; simpl in Hg, He.
  pose proof (run_button config b frames st1 false Hnd Hb Hg) as Hrun.
  destruct (run config frames st1) as [st2 evs]; simpl in *.
  constructor; [done |].
  apply (Forall_fmap (events_of (button_name b)) (λ l, l = [])).
  rewrite Hrun.
  apply edges_released, Forall_fmap, Forall_forall. intros data' _.
  apply Hnever.
Qed.

Lemma button_value_outside_bytes_silent_witness :
  Forall (λ evs, events_of "turbo" evs = [])
    (run (mkDefinition 1 1 None (Some [mkButtonConfig 256 0 "turbo"]) None)
         [[xff]; [x00]; []] fresh).2.
Proof.
  refine (proj2 (button_value_outside_bytes_silent
                   (mkDefinition 1 1 None
                      (Some [mkButtonConfig 256 0 "turbo"]) None)
                   (mkButtonConfig 256 0 "turbo") [[xff]; [x00]; []] fresh
                   _ _ _ eq_refl _)).
  - decide_by_compute.
  - decide_by_compute.
  - decide_by_compute.
  - simpl. lia.
Defined.

(** ** A button that shares its name with a stick *)

(** X12.  Field names are one namespace.  When a button shares its name
    with a stick (the names being distinct within each list, no stick
    being called "__proto__" and no status using that name) and that name
    reads as unset, the frame makes the button find the stick's pair
    under its name: the frame reports, under that name, no move but a
    press if the button decodes as pressed and a release if it does not,
    although the button was never pressed. *)
Theorem shared_name_reports_release config data s b st :
  NoDup (stick_names config) →
  NoDup (button_names config) →
  "__proto__" ∉ stick_names config →
  s ∈ default [] (joysticks config) →
  b ∈ default [] (buttons config) →
  stick_name s = button_name b →
  button_name b ∉ status_names config →
  get st (button_name b) = VUndef →
  events_of (button_name b) (onControllerFrame config data st).2
  = if pressed b data
    then [mkEvent (button_name b +:+ ":press") []]
    else [mkEvent (button_name b +:+ ":release") []].
Proof.
  intros Hnds Hndb Hproto Hs Hb Hname Hstatus Hget.
  rewrite onControllerFrame_passes; simpl. rewrite !events_of_app.
  destruct (processJoysticks_own config data s st Hnds Hs) as [Hg1 He1];
    [by left |].
  rewrite Hname in Hg1, He1.
  rewrite stick_cb_fresh in Hg1, He1 by (by rewrite Hname); simpl in Hg1, He1.
  rewrite Hname, get_put_stick in Hg1.
  set (st1 := (processJoysticks config data st).1) in *.
  destruct (processButtons_own config data b st1 Hndb Hb) as [_ He2].
  set (st2 := (processButtons config data st1).1) in *.
  destruct (processStatus_foreign config data st2 _ Hstatus) as [_ He3].
  rewrite He1, He2, He3, app_nil_r; simpl.
  unfold button_cb. fold (pressed b data). rewrite Hg1; simpl.
  by destruct (pressed b data).
Qed.

Lemma shared_name_reports_release_witness :
  events_of "a"
    (onControllerFrame
       (mkDefinition 1 1 (Some [mkStickConfig "a" 0 1])
          (Some [mkButtonConfig 1 2 "a"]) None)
       [x05; x06; x00] fresh).2
  = [mkEvent "a:release" []].
Proof.
  refine (shared_name_reports_release
            (mkDefinition 1 1 (Some [mkStickConfig "a" 0 1])
               (Some [mkButtonConfig 1 2 "a"]) None)
            [x05; x06; x00] (mkStickConfig "a" 0 1) (mkButtonConfig 1 2 "a")
            fresh _ _ _ _ _ eq_refl _ eq_refl); decide_by_compute.
Defined.

(** * Further properties of the resolver and the loader *)

Lemma matches_device_true tmpConfig devices :
  matches_device tmpConfig devices = true
  ↔ ∃ d, d ∈ devices ∧ device_matches tmpConfig d.
Proof.
  unfold device_matches. induction devices as [|d devices IH]; simpl.
  - split; [discriminate | by intros (d & ?%elem_of_nil & _)].
  - case_bool_decide as Hv; case_bool_decide as Hp; simpl;
      try (rewrite IH; split;
           [ intros (d' & Hd' & Hm); exists d'; split; [by right | done]
           | intros (d' & [-> | Hd']%elem_of_cons & Hm);
             [by destruct Hm | by exists d'] ]).
    split; [| done]. intros _. exists d. split; [left | done].
Qed.

Lemma matches_device_none tmpConfig devices :
  matches_device tmpConfig devices = false
  ↔ ∀ d, d ∈ devices → ¬ device_matches tmpConfig d.
Proof.
  rewrite <- not_true_iff_false, matches_device_true. split.
  - intros Hno d Hd Hm. apply Hno. by exists d.
  - intros Hno (d & Hd & Hm). by apply (Hno d).
Qed.

(** What the loop over the files of a vendor directory returns, case by
    case. *)
Lemma scan_files_inv fs devices type files :
  match scan_files fs devices type files with
  | inr (false, t) =>
      t = type
      ∧ ∀ file, file ∈ files →
          ∃ c, definitions fs !! (type +:+ "/" +:+ file) = Some c
               ∧ ∀ d, d ∈ devices → ¬ device_matches c d
  | inr (true, t) =>
      ∃ pre file post c d,
        files = pre ++ file :: post
        ∧ (∀ f, f ∈ pre →
             ∃ c', definitions fs !! (type +:+ "/" +:+ f) = Some c'
                   ∧ ∀ d', d' ∈ devices → ¬ device_matches c' d')
        ∧ definitions fs !! (type +:+ "/" +:+ file) = Some c
        ∧ d ∈ devices ∧ device_matches c d
        ∧ t = type +:+ "/" +:+ JS.replace ".json" "" file
  | inl err =>
      ∃ file, file ∈ files
        ∧ definitions fs !! (type +:+ "/" +:+ file) = None
        ∧ err = ModuleNotFound (type +:+ "/" +:+ file)
  end.
Proof.
  induction files as [|file files IH]; simpl.
  - split; [done |]. by intros file ?%elem_of_nil.
  - unfold require.
    destruct (definitions fs !! (type +:+ "/" +:+ file)) as [c|] eqn:Hload.
    + destruct (matches_device c devices) eqn:Hm.
      * apply matches_device_true in Hm as (d & Hd & Hm).
        exists [], file, files, c, d. split_and!; try done.
        by intros f ?%elem_of_nil.
      * rewrite matches_device_none in Hm.
        destruct (scan_files fs devices type files) as [err | [[|] t]].
        -- destruct IH as (f & Hf & Hnone & ->).
           exists f. split; [by right | done].
        -- destruct IH as (pre & f & post & c' & d & -> & Hpre & Hc & Hd & Hmd & ->).
           exists (file :: pre), f, post, c', d. split_and!; try done.
           intros g [-> | Hg]%elem_of_cons; [by exists c | by apply Hpre].
        -- destruct IH as [-> Hall]. split; [done |].
           intros g [-> | Hg]%elem_of_cons; [by exists c | by apply Hall].
    + exists file. split; [left | done].
Qed.

Lemma scan_files_first_match fs devices type pre file post c d :
  (∀ f, f ∈ pre →
     ∃ c', definitions fs !! (type +:+ "/" +:+ f) = Some c'
           ∧ ∀ d', d' ∈ devices → ¬ device_matches c' d') →
  definitions fs !! (type +:+ "/" +:+ file) = Some c →
  d ∈ devices → device_matches c d →
  scan_files fs devices type (pre ++ file :: post)
  = inr (true, type +:+ "/" +:+ JS.replace ".json" "" file).
Proof.
  intros Hpre Hc Hd Hm. induction pre as [|f pre IH]; simpl; unfold require.
  - rewrite Hc.
    by rewrite (proj2 (matches_device_true c devices))
      by (by exists d).
  - destruct (Hpre f) as (c' & Hc' & Hno); [left |].
    rewrite Hc', (proj2 (matches_device_none c' devices)) by done.
    apply IH. intros g Hg. apply Hpre. by right.
Qed.

Lemma chars_separator type rest : "/"%char ∈ chars (type +:+ "/" +:+ rest).
Proof. rewrite chars_app; simpl. apply elem_of_app. right. left. Qed.

Lemma resolve_bare fs devices type :
  "/"%char ∉ chars type →
  resolve fs devices type
  = match directories fs !! type with
    | None => inl (ConfigurationNotFound type)
    | Some files =>
        match scan_files fs devices type files with
        | inl err => inl err
        | inr (false, _) => inl (DeviceNotDetected type)
        | inr (true, type') => inr type'
        end
    end.
Proof.
  intros Hbare. unfold resolve, detectControllerConfiguration, hasProductId.
  destruct (JS.contains_char "/" type) eqn:Hc;
    [by apply contains_char_chars in Hc |].
  by destruct (directories fs !! type).
Qed.

Lemma resolve_qualified fs devices type :
  "/"%char ∈ chars type → resolve fs devices type = inr type.
Proof.
  intros Hsep. unfold resolve, detectControllerConfiguration, hasProductId.
  apply contains_char_chars in Hsep. by rewrite Hsep.
Qed.

(** X13.  Detection takes the first definition, in the order the vendor
    directory lists its files, that matches an attached device.  For an
    identifier without "/" whose vendor directory lists [file] after
    files that all load and match no attached device, if the definition
    of [file] has the (vendorID, productID) of some attached device then
    resolution succeeds with "<vendor>/<file without .json>", whatever
    files follow. *)
Theorem resolve_first_match fs devices type pre file post c d :
  "/"%char ∉ chars type →
  directories fs !! type = Some (pre ++ file :: post) →
  (∀ f, f ∈ pre →
     ∃ c', definitions fs !! (type +:+ "/" +:+ f) = Some c'
           ∧ ∀ d', d' ∈ devices → ¬ device_matches c' d') →
  definitions fs !! (type +:+ "/" +:+ file) = Some c →
  d ∈ devices → device_matches c d →
  resolve fs devices type
  = inr (type +:+ "/" +:+ JS.replace ".json" "" file).
Proof.
  intros Hbare Hdir Hpre Hc Hd Hm.
  rewrite resolve_bare, Hdir by done.
  by rewrite (scan_files_first_match _ _ _ _ _ _ c d).
Qed.

Lemma resolve_first_match_witness :
  resolve sample_fs [mkDevice 1 2; mkDevice 1133 49693] "logitech"
  = inr "logitech/gamepadf310".
Proof.
  refine (resolve_first_match sample_fs [mkDevice 1 2; mkDevice 1133 49693]
            "logitech" [] "gamepadf310.json" [] sample_definition
            (mkDevice 1133 49693) _ eq_refl _ eq_refl _ _).
  - decide_by_compute.
  - by intros f ?%elem_of_nil.
  - right. left.
  - by split.
Defined.

(** X14.  A resolved identifier is fully qualified and comes from an
    attached device.  Whenever resolution succeeds, the result contains
    the separator "/", so resolving it again returns it unchanged
    whatever the store and the attached devices; and it is either the
    identifier given, which already had the separator, or the name of a
    listed definition file whose (vendorID, productID) is that of an
    attached device. *)
Theorem resolve_result_qualified fs devices type t :
  resolve fs devices type = inr t →
  "/"%char ∈ chars t
  ∧ (∀ fs' devices', resolve fs' devices' t = inr t)
  ∧ (("/"%char ∈ chars type ∧ t = type)
     ∨ (("/"%char ∉ chars type)
        ∧ ∃ files file c d,
            directories fs !! type = Some files ∧ file ∈ files
            ∧ definitions fs !! (type +:+ "/" +:+ file) = Some c
            ∧ d ∈ devices ∧ device_matches c d
            ∧ t = type +:+ "/" +:+ JS.replace ".json" "" file)).
Proof.
  intros Hres.
  assert (Hcases :
    ("/"%char ∈ chars type ∧ t = type)
    ∨ (("/"%char ∉ chars type)
       ∧ ∃ files file c d,
           directories fs !! type = Some files ∧ file ∈ files
           ∧ definitions fs !! (type +:+ "/" +:+ file) = Some c
           ∧ d ∈ devices ∧ device_matches c d
           ∧ t = type +:+ "/" +:+ JS.replace ".json" "" file)).
  { destruct (decide ("/"%char ∈ chars type)) as [Hsep | Hbare].
    - left. rewrite resolve_qualified in Hres by done.
      split; [done | by injection Hres].
    - right. split; [done |]. rewrite resolve_bare in Hres by done.
      destruct (directories fs !! type) as [files|]; [| discriminate].
      pose proof (scan_files_inv fs devices type files) as Hinv.
      destruct (scan_files fs devices type files) as [err | [[|] t']];
        try discriminate.
      injection Hres as ->.
      destruct Hinv as (pre & file & post & c & d & -> & _ & Hc & Hd & Hm & ->).
      exists (pre ++ file :: post), file, c, d. split_and!; try done.
      apply elem_of_app. right. left. }
  assert (Hsep : "/"%char ∈ chars t).
  { destruct Hcases as [[Hsep ->] | (_ & files & file & c & d & _ & _ & _ & _ & _ & ->)];
      [done | apply chars_separator]. }
  split; [done |]. split; [| done].
  intros fs' devices'. by apply resolve_qualified.
Qed.

Lemma resolve_result_qualified_witness :
  "/"%char ∈ chars "logitech/gamepadf310"
  ∧ ∀ fs' devices', resolve fs' devices' "logitech/gamepadf310"
                    = inr "logitech/gamepadf310".
Proof.
  destruct (resolve_result_qualified sample_fs [mkDevice 1133 49693]
              "logitech" "logitech/gamepadf310" eq_refl) as (H1 & H2 & _).
  exact (conj H1 H2).
Defined.

(** X15.  Why resolution reports a missing vendor or a missing device.
    ConfigurationNotFound is thrown only for an identifier without "/"
    whose vendor directory does not exist, and names that identifier.
    DeviceNotDetected is thrown only for an identifier without "/" whose
    vendor directory exists, after every file it lists has been loaded
    and none of their definitions has the (vendorID, productID) of an
    attached device, and names that identifier. *)
Theorem resolve_error_cause fs devices type t :
  (resolve fs devices type = inl (ConfigurationNotFound t) →
     t = type ∧ ("/"%char ∉ chars type) ∧ directories fs !! type = None)
  ∧ (resolve fs devices type = inl (DeviceNotDetected t) →
     t = type ∧ ("/"%char ∉ chars type)
     ∧ ∃ files, directories fs !! type = Some files
         ∧ ∀ file, file ∈ files →
             ∃ c, definitions fs !! (type +:+ "/" +:+ file) = Some c
                  ∧ ∀ d, d ∈ devices → ¬ device_matches c d).
Proof.
  split; intros Hres;
    (destruct (decide ("/"%char ∈ chars type)) as [Hsep | Hbare];
       [by rewrite resolve_qualified in Hres |]);
    rewrite resolve_bare in Hres by done;
    destruct (directories fs !! type) as [files|] eqn:Hdir.
  - pose proof (scan_files_inv fs devices type files) as Hinv.
    destruct (scan_files fs devices type files) as [err' | [[|] t']];
      try discriminate.
    injection Hres as ->. by destruct Hinv as (file & _ & _ & ?).
  - by injection Hres as <-.
  - pose proof (scan_files_inv fs devices type files) as Hinv.
    destruct (scan_files fs devices type files) as [err' | [[|] t']];
      try discriminate.
    + injection Hres as ->. by destruct Hinv as (file & _ & _ & ?).
    + injection Hres as <-. split_and!; try done.
      exists files. split; [done |]. by destruct Hinv.
  - discriminate.
Qed.

Lemma resolve_error_cause_witness :
  "logitech" = "logitech" ∧ ("/"%char ∉ chars "logitech")
  ∧ ∃ files, directories sample_fs !! "logitech" = Some files
      ∧ ∀ file, file ∈ files →
          ∃ c, definitions sample_fs !! ("logitech" +:+ "/" +:+ file)
               = Some c
               ∧ ∀ d, d ∈ [mkDevice 1 2] → ¬ device_matches c d.
Proof.
  exact (proj2 (resolve_error_cause sample_fs [mkDevice 1 2] "logitech"
                  "logitech") eq_refl).
Defined.

(** ** The loader and the store *)

Lemma storage_eta fs : mkStorage (directories fs) (definitions fs) = fs.
Proof. by destruct fs. Qed.

(** X17.  An override stays in the store.  The definition that
    [loadConfiguration] returns is the cached object, so after a
    successful load every later load of the same identifier, with the
    same options or with none, returns the same overridden definition and
    leaves the store as it is, and detection reads the overridden
    identifiers from it. *)
Theorem loadConfiguration_override_sticks fs type options fs1 config :
  loadConfiguration fs type options = inr (fs1, config) →
  loadConfiguration fs1 type options = inr (fs1, config)
  ∧ loadConfiguration fs1 type (mkOptions None None) = inr (fs1, config)
  ∧ require fs1 (type +:+ ".json") = inr config.
Proof.
  unfold loadConfiguration, require.
  destruct (definitions fs !! (type +:+ ".json")) as [stored|] eqn:Hst;
    [| discriminate].
  intros [= <- <-]. simpl. rewrite !lookup_insert_eq, !insert_insert_eq.
  split; [| done].
  destruct options as [[v|] [p|]]; simpl;
    repeat (case_bool_decide; simpl); done.
Qed.

Lemma loadConfiguration_override_sticks_witness :
  ∃ fs1 config,
    loadConfiguration sample_fs "logitech/gamepadf310"
      (mkOptions (Some 7%Z) None) = inr (fs1, config)
    ∧ vendorID config = 7%Z
    ∧ loadConfiguration fs1 "logitech/gamepadf310" (mkOptions None None)
      = inr (fs1, config).
Proof.
  eexists _, _. split; [reflexivity |]. split; [reflexivity |].
  exact (proj1 (proj2 (loadConfiguration_override_sticks sample_fs
                         "logitech/gamepadf310" (mkOptions (Some 7%Z) None)
                         _ _ eq_refl))).
Defined.

(** ** From a vendor name to a loaded definition *)

Lemma string_app_assoc (s1 s2 s3 : string) :
  (s1 +:+ s2) +:+ s3 = s1 +:+ (s2 +:+ s3).
Proof.
  induction s1 as [|c s1 IH]; [done |].
  change (String c ((s1 +:+ s2) +:+ s3) = String c (s1 +:+ (s2 +:+ s3))).
  by rewrite IH.
Qed.

Lemma prefix_other_head c pat d s :
  c ≠ d → String.prefix (String c pat) (String d s) = false.
Proof. intros Hne. simpl. by destruct (ascii_dec c d). Qed.

Lemma replace_json_suffix base :
  "."%char ∉ chars base →
  JS.replace ".json" "" (base +:+ ".json") = base.
Proof.
  induction base as [|c base IH]; intros Hdot; [done |].
  simpl in Hdot. apply not_elem_of_cons in Hdot as [Hc Hdot].
  change (String c base +:+ ".json") with (String c (base +:+ ".json")).
  unfold JS.replace; fold JS.replace.
  rewrite prefix_other_head by done. f_equal. by apply IH.
Qed.

(** X18.  Stripping the extension gives back the base name.  For a file
    name made of a base without "." followed by ".json",
    [file.replace(".json", "")] is the base. *)
Theorem replace_strips_extension base :
  "."%char ∉ chars base →
  JS.replace ".json" "" (base +:+ ".json") = base.
Proof. apply replace_json_suffix. Qed.

Lemma replace_strips_extension_witness :
  JS.replace ".json" "" ("gamepadf310" +:+ ".json") = "gamepadf310".
Proof. apply replace_strips_extension. decide_by_compute. Defined.

(** X19.  Detection and loading fit together.  For a vendor name
    without "/" whose directory lists "<base>.json" ([base] without ".")
    as the first file matching an attached device, [connect] without
    overrides gets past both steps: it resolves "<vendor>/<base>", loads
    the very definition that detection matched, whose identifiers are
    those of an attached device, and leaves the store unchanged. *)
Theorem connect_loads_detected fs devices type pre base post c d :
  "/"%char ∉ chars type →
  "."%char ∉ chars base →
  directories fs !! type = Some (pre ++ (base +:+ ".json") :: post) →
  (∀ f, f ∈ pre →
     ∃ c', definitions fs !! (type +:+ "/" +:+ f) = Some c'
           ∧ ∀ d', d' ∈ devices → ¬ device_matches c' d') →
  definitions fs !! (type +:+ "/" +:+ base +:+ ".json") = Some c →
  d ∈ devices → device_matches c d →
  connect fs devices type (mkOptions None None)
  = inr (type +:+ "/" +:+ base, fs, c).
Proof.
  intros Hbare Hdot Hdir Hpre Hc Hd Hm. unfold connect.
  rewrite resolve_bare, Hdir by done.
  rewrite (scan_files_first_match _ _ _ _ _ _ c d) by done.
  rewrite replace_json_suffix by done.
  unfold loadConfiguration.
  rewrite !string_app_assoc, Hc; simpl.
  by rewrite insert_id, storage_eta.
Qed.

Lemma connect_loads_detected_witness :
  connect sample_fs [mkDevice 1 2; mkDevice 1133 49693] "logitech"
    (mkOptions None None)
  = inr ("logitech/gamepadf310", sample_fs, sample_definition).
Proof.
  refine (connect_loads_detected sample_fs
            [mkDevice 1 2; mkDevice 1133 49693] "logitech" []
            "gamepadf310" [] sample_definition (mkDevice 1133 49693)
            _ _ eq_refl _ eq_refl _ _).
  - decide_by_compute.
  - decide_by_compute.
  - by intros f ?%elem_of_nil.
  - right. left.
  - by split.
Defined.

(** ** The connect protocol *)

(** X20.  What [connect] emits tells how far it got.  Whatever the
    store, the attached devices and the device constructor do, a call of
    [connect] emits nothing, or "connecting" alone, or "connecting" then
    "connected".  It emits nothing exactly when resolution fails, and
    then throws the resolution error and leaves the object and the store
    untouched; it emits both exactly when it returns normally, and then
    the handle is open on the identifiers of the loaded definition, which
    is the one [loadConfiguration] returns for the resolved identifier.
    The state object and the options are never changed. *)
Theorem connect_protocol hid_open fs devices this :
  let o := connect_gamepad hid_open fs devices this in
  (emitted o = []
   ∨ emitted o = [mkEvent "connecting" []]
   ∨ emitted o = [mkEvent "connecting" []; mkEvent "connected" []])
  ∧ (emitted o = [] ↔ ∃ err, resolve fs devices (_type this) = inl err)
  ∧ (∀ err, resolve fs devices (_type this) = inl err →
       thrown o = Some (ThrownError err)
       ∧ this_after o = this ∧ fs_after o = fs)
  ∧ (thrown o = None
     ↔ emitted o = [mkEvent "connecting" []; mkEvent "connected" []])
  ∧ (thrown o = None →
       ∃ config,
         connect fs devices (_type this) (_options this)
         = inr (_type (this_after o), fs_after o, config)
         ∧ _config (this_after o) = Some config
         ∧ _usb (this_after o) = Some (vendorID config, productID config)
         ∧ hid_open (vendorID config) (productID config) = true)
  ∧ _states (this_after o) = _states this
  ∧ _options (this_after o) = _options this.
Proof.
  unfold connect_gamepad, connect, resolve.
  destruct (detectControllerConfiguration fs devices (_type this))
    as [err | [[|] type']]; simpl.
  - split_and!; try done; auto.
    + split; [by eexists | done].
    + by intros err' [= <-].
  - destruct (loadConfiguration fs type' (_options this))
      as [err | [fs' config]]; simpl.
    + split_and!; try done; auto.
      * split; [done | by intros [err' ?]].
    + destruct (hid_open (vendorID config) (productID config)) eqn:Hopen;
        simpl; split_and!; try done; auto.
      * split; [done | by intros [err' ?]].
      * intros _. by exists config.
      * split; [done | by intros [err' ?]].
  - split_and!; try done; auto.
    + split; [by eexists | done].
    + by intros err [= <-].
Qed.

(** X21.  A connect that fails after detection leaves the object
    narrowed.  When [connect] emits "connecting", the object's type has
    been replaced by the resolved identifier, which contains "/": even if
    loading the definition or opening the device then fails, a later
    [connect] on the same object skips detection, whatever devices are
    attached by then, and so never throws ConfigurationNotFound or
    DeviceNotDetected. *)
Theorem connect_keeps_resolved_type hid_open fs devices this :
  let o := connect_gamepad hid_open fs devices this in
  emitted o ≠ [] →
  resolve fs devices (_type this) = inr (_type (this_after o))
  ∧ "/"%char ∈ chars (_type (this_after o))
  ∧ ∀ hid_open' fs' devices',
      let o' := connect_gamepad hid_open' fs' devices' (this_after o) in
      emitted o' ≠ []
      ∧ _type (this_after o') = _type (this_after o).
Proof.
  intros o Hemitted.
  assert (Hres : resolve fs devices (_type this) = inr (_type (this_after o))).
  { subst o. unfold connect_gamepad, resolve in *.
    destruct (detectControllerConfiguration fs devices (_type this))
      as [err | [[|] type']]; simpl in *; try done.
    destruct (loadConfiguration fs type' (_options this))
      as [err | [fs' config]]; simpl; [done |].
    by destruct (hid_open (vendorID config) (productID config)). }
  split; [done |].
  assert (Hsep : "/"%char ∈ chars (_type (this_after o))).
  { destruct (decide ("/"%char ∈ chars (_type this))) as [Hs | Hbare].
    - rewrite resolve_qualified in Hres by done. by injection Hres as <-.
    - rewrite resolve_bare in Hres by done.
      destruct (directories fs !! _type this) as [files|]; [| discriminate].
      pose proof (scan_files_inv fs devices (_type this) files) as Hinv.
      destruct (scan_files fs devices (_type this) files)
        as [err | [[|] t']]; try discriminate.
      injection Hres as <-.
      destruct Hinv as (pre & file & post & c & d & _ & _ & _ & _ & _ & ->).
      apply chars_separator. }
  split; [done |]. intros hid_open' fs' devices' o'. subst o'.
  unfold connect_gamepad, detectControllerConfiguration, hasProductId.
  apply contains_char_chars in Hsep. rewrite Hsep.
  destruct (loadConfiguration fs' (_type (this_after o))
              (_options (this_after o))) as [err | [fs'' config]]; simpl;
    [done |].
  by destruct (hid_open' (vendorID config) (productID config)).
Qed.

Lemma connect_keeps_resolved_type_witness :
  resolve sample_fs [mkDevice 1133 49693] "logitech"
  = inr "logitech/gamepadf310"
  ∧ "/"%char ∈ chars "logitech/gamepadf310".
Proof.
  destruct (connect_keeps_resolved_type (λ _ _, false) sample_fs
              [mkDevice 1133 49693] (new_Gamepad "logitech" None))
    as (H1 & H2 & _); [discriminate |].
  exact (conj H1 H2).
Defined.


(** * Events of a frame, field by field *)

(** X22.  A subscription hears its own field only.  Among the events of
    any frame, one named "<n>:move" comes from a configured stick called
    [n] and carries the pair at its pins; one named "<n>:press" or
    "<n>:release" comes from a configured button called [n], carries
    nothing, and tells how that button decodes in this frame; one named
    "<n>:change" comes from a configured status called [n] and carries
    the label resolved for it.  No field can produce an event under the
    name of another field or of another kind of transition. *)
Theorem subscription_hears_own_field config data st e n :
  e ∈ (onControllerFrame config data st).2 →
  (ev_name e = n +:+ ":move" →
     ∃ s, s ∈ default [] (joysticks config) ∧ stick_name s = n
          ∧ ev_args e = [VStick (pair_at s data)])
  ∧ (ev_name e = n +:+ ":press" →
     ∃ b, b ∈ default [] (buttons config) ∧ button_name b = n
          ∧ ev_args e = [] ∧ pressed b data = true)
  ∧ (ev_name e = n +:+ ":release" →
     ∃ b, b ∈ default [] (buttons config) ∧ button_name b = n
          ∧ ev_args e = [] ∧ pressed b data = false)
  ∧ (ev_name e = n +:+ ":change" →
     ∃ s, s ∈ default [] (status config) ∧ status_name s = n
          ∧ ev_args e = [label_val (label_at s data)]).
Proof.
  rewrite onControllerFrame_passes; simpl.
  rewrite processJoysticks_forEach, processButtons_forEach,
    processStatus_forEach.
  assert (Hkind : ∀ m suf suf', suf ∈ suffixes → suf' ∈ suffixes →
            m +:+ suf = n +:+ suf' → m = n ∧ suf = suf')
    by (intros m suf suf'; apply event_name_unique).
  intros [He | [He | He]%elem_of_app]%elem_of_app;
    apply forEach_events_at in He as (a & st' & Ha & He).
  - apply stick_cb_event in He as ->; simpl.
    split_and!; intros Hname;
      apply Hkind in Hname as [<- Hsuf]; try in_suffixes;
      try discriminate Hsuf.
    by exists a.
  - apply button_cb_event in He as [[-> Hp] | [-> Hp]]; simpl;
      split_and!; intros Hname;
      apply Hkind in Hname as [<- Hsuf]; try in_suffixes;
      try discriminate Hsuf; by exists a.
  - apply status_cb_event in He as ->; simpl.
    split_and!; intros Hname;
      apply Hkind in Hname as [<- Hsuf]; try in_suffixes;
      try discriminate Hsuf.
    by exists a.
Qed.

Lemma subscription_hears_own_field_witness :
  ∃ b, b ∈ default [] (buttons sample) ∧ button_name b = "fire"
       ∧ ev_args (mkEvent "fire:press" []) = []
       ∧ pressed b [x00; x00; x00; x00; x01; x07] = true.
Proof.
  refine (proj1 (proj2 (subscription_hears_own_field sample
                          [x00; x00; x00; x00; x01; x07] fresh
                          (mkEvent "fire:press" []) "fire" _)) eq_refl).
  decide_by_compute.
Defined.

Section FieldEvents.

Context {A : Type} (key : A → string) (cb : A → pass) (quiet : A → Prop).

Hypothesis cb_own :
  ∀ a st k, k ≠ key a → own (cb a st).1 !! k = own st !! k.

Hypothesis cb_proto :
  ∀ a st, quiet a → proto (cb a st).1 = proto st.

Hypothesis cb_local :
  ∀ a st1 st2, get st1 (key a) = get st2 (key a) →
    get (cb a st1).1 (key a) = get (cb a st2).1 (key a)
    ∧ (cb a st1).2 = (cb a st2).2.

(** With distinct names, every callback of a pass emits what it would
    emit on the state the pass started from. *)
Lemma forEach_events_concat l st st0 :
  NoDup (key <$> l) → Forall quiet l →
  (∀ a, a ∈ l → get st (key a) = get st0 (key a)) →
  (forEach cb l st).2 = concat ((λ a, (cb a st0).2) <$> l).
Proof.
  intros Hnd Hq. revert st Hnd.
  induction Hq as [|a l Ha Hq IH]; intros st Hnd Hagree; [done |].
  rewrite fmap_cons in Hnd. apply NoDup_cons in Hnd as [Hna Hnd].
  rewrite (forEach_cons cb). simpl.
  destruct (cb_local a st st0) as [_ ->]; [apply Hagree; left |].
  f_equal. apply IH; [done |].
  intros b Hb.
  rewrite (get_frame key cb quiet cb_own cb_proto) by
    (try (by left); intros Heq; apply Hna; rewrite <- Heq;
     by apply list_elem_of_fmap_2).
  apply Hagree. by right.
Qed.

End FieldEvents.

(** X23.  The events of a frame, in full.  For a definition with
    distinct field names and no stick called "__proto__", the events of a
    frame are, in this order, what each stick, then each button, then
    each status of the definition reports, every one of them judged
    against the state the frame started from and listed in the order of
    the definition. *)
Theorem frame_events_in_order config data st :
  names_distinct config →
  "__proto__" ∉ stick_names config →
  (onControllerFrame config data st).2
  = concat ((λ s, (stick_cb data s st).2) <$> default [] (joysticks config))
    ++ concat ((λ b, (button_cb data b st).2) <$> default [] (buttons config))
    ++ concat ((λ s, (status_cb data s st).2) <$> default [] (status config)).
Proof.
  intros Hnd Hproto.
  destruct (names_distinct_inv config Hnd)
    as (Hnds & Hndb & Hndt & _ & Hbutton & Hstatus).
  rewrite onControllerFrame_passes; simpl.
  assert (H1 : ∀ b, b ∈ default [] (buttons config) →
    get (processJoysticks config data st).1 (button_name b)
    = get st (button_name b)).
  { intros b Hb. apply processJoysticks_get_foreign; [| by left].
    apply Hbutton. by apply list_elem_of_fmap_2. }
  assert (H2 : ∀ s, s ∈ default [] (status config) →
    get (processButtons config data
           (processJoysticks config data st).1).1 (status_name s)
    = get st (status_name s)).
  { intros s Hs.
    assert (Hk : status_name s ∈ status_names config)
      by (by apply list_elem_of_fmap_2).
    rewrite (proj1 (processButtons_foreign config data _ _
                      (proj2 (Hstatus _ Hk)))).
    apply processJoysticks_get_foreign; [by apply Hstatus | by left]. }
  set (st1 := (processJoysticks config data st).1) in *.
  set (st2 := (processButtons config data st1).1) in *.
  rewrite processJoysticks_forEach, processButtons_forEach,
    processStatus_forEach.
  rewrite (forEach_events_concat stick_name (stick_cb data)
             (λ s, stick_name s ≠ "__proto__") (stick_cb_own data)
             (stick_cb_proto data) (stick_cb_local data) _ st st);
    [| done | by apply sticks_quiet | done].
  rewrite (forEach_events_concat button_name (button_cb data) (λ _, True)
             (button_cb_own data) (λ b st _, button_cb_proto data b st)
             (button_cb_local data) _ st1 st);
    [| done | apply all_quiet | done].
  by rewrite (forEach_events_concat status_name (status_cb data) (λ _, True)
                (status_cb_own data) (λ s st _, status_cb_proto data s st)
                (status_cb_local data) _ st2 st);
    [| | apply all_quiet |].
Qed.

Lemma frame_events_in_order_witness :
  (onControllerFrame sample [x01; x02; x0a; x14; x01; x01]
     (put fresh "left" (VStick (mkStick (Some 1%Z) (Some 1%Z))))).2
  = [mkEvent "left:move" [VStick (mkStick (Some 10%Z) (Some 20%Z))];
     mkEvent "fire:press" []; mkEvent "mode:change" [VStr "on"]].
Proof.
  assert (Hnd : names_distinct sample) by decide_by_compute.
  assert (Hproto : "__proto__" ∉ stick_names sample) by decide_by_compute.
  exact (frame_events_in_order sample [x01; x02; x0a; x14; x01; x01]
           (put fresh "left" (VStick (mkStick (Some 1%Z) (Some 1%Z))))
           Hnd Hproto).
Defined.

(** * Fields whose names the state object does not inherit *)

(** X24.  Stick sub-pass.  For a definition whose stick names are
    distinct and none of them "__proto__", and any of its sticks: on the
    first frame after construction, if no stick bears the name of a
    method of [Object.prototype], the pass emits no event at all and
    stores the pair read at the stick's pins; whenever the stick reads as
    unset, nothing is emitted for it and the pair is stored as baseline;
    once it reads as a pair, a frame with the same two bytes emits
    nothing for the stick and leaves it as it was, and a frame where
    either byte differs emits exactly one "<name>:move" event carrying
    the new pair, which the stick then reads as. *)
Theorem processJoysticks_spec config data s st :
  NoDup (stick_names config) →
  "__proto__" ∉ stick_names config →
  s ∈ default [] (joysticks config) →
  let new := pair_at s data in
  let st' := (processJoysticks config data st).1 in
  let emitted := events_of (stick_name s) (processJoysticks config data st).2 in
  (st = fresh →
   (∀ k, k ∈ stick_names config → k ∉ object_methods) →
   (processJoysticks config data st).2 = []
   ∧ get st' (stick_name s) = VStick new)
  ∧ (get st (stick_name s) = VUndef →
       emitted = [] ∧ get st' (stick_name s) = VStick new)
  ∧ (∀ old, get st (stick_name s) = VStick old →
       (st_x old = st_x new ∧ st_y old = st_y new →
          emitted = [] ∧ get st' (stick_name s) = VStick old)
       ∧ (st_x old ≠ st_x new ∨ st_y old ≠ st_y new →
          emitted = [mkEvent (stick_name s +:+ ":move") [VStick new]]
          ∧ get st' (stick_name s) = VStick new)).
Proof.
  intros Hnd Hproto Hs new st' emitted. subst st' emitted.
  destruct (processJoysticks_own config data s st Hnd Hs) as [Hget Hev];
    [by left |].
  rewrite Hget, Hev. split; [| split].
  - intros -> Hnames.
    assert (Hunset : ∀ a, a ∈ default [] (joysticks config) →
              get fresh (stick_name a) = VUndef).
    { intros a Ha. rewrite get_fresh.
      assert (Hk : stick_name a ∈ stick_names config)
        by (by apply list_elem_of_fmap_2).
      rewrite bool_decide_eq_false_2; [done |].
      intros [Heq | Hin]%elem_of_cons; [by rewrite Heq in Hk |].
      by apply (Hnames _ Hk). }
    rewrite stick_cb_fresh by (by apply Hunset); simpl.
    rewrite get_put_stick. split; [| done].
    apply elem_of_nil_inv. intros e He.
    rewrite processJoysticks_forEach in He.
    destruct (forEach_events_at _ _ _ _ He) as (a & st0 & Ha & He0).
    apply stick_cb_owned in He0.
    destruct (processJoysticks_own config data a fresh Hnd Ha) as [_ Hfa];
      [by left |].
    rewrite stick_cb_fresh in Hfa by (by apply Hunset); simpl in Hfa.
    assert (Hin : e ∈ events_of (stick_name a)
                        (processJoysticks config data fresh).2).
    { apply list_elem_of_filter. split; [done |].
      by rewrite processJoysticks_forEach. }
    rewrite Hfa in Hin. by apply elem_of_nil in Hin.
  - intros Hundef. rewrite stick_cb_fresh by done; simpl.
    by rewrite get_put_stick.
  - intros old Hold. split.
    + intros [Hx Hy]. by rewrite (stick_cb_same _ _ _ old).
    + intros Hne. rewrite (stick_cb_moved _ _ _ old) by done; simpl.
      by rewrite get_put_stick.
Qed.

Lemma processJoysticks_spec_witness :
  (processJoysticks sample [x07; x08; x0a; x14] fresh).2 = []
  ∧ get (processJoysticks sample [x07; x08; x0a; x14] fresh).1 "left"
    = VStick (mkStick (Some 10%Z) (Some 20%Z)).
Proof.
  assert (Hnd : NoDup (stick_names sample)) by decide_by_compute.
  assert (Hproto : "__proto__" ∉ stick_names sample) by decide_by_compute.
  assert (Hs : mkStickConfig "left" 2 3 ∈ default [] (joysticks sample))
    by decide_by_compute.
  refine (proj1 (processJoysticks_spec sample [x07; x08; x0a; x14]
                   (mkStickConfig "left" 2 3) fresh Hnd Hproto Hs)
            eq_refl _).
  apply Forall_forall. decide_by_compute.
Defined.

(** X25.  Button sub-pass, first observation.  For a definition whose
    button names are distinct and any of its buttons that reads as unset
    in the state object (as on the first frame, for a name that a fresh
    object does not answer to), the pass stores
    isPressed = ((frame[pin] & 0xFF) == value) for the button and emits,
    for that button, exactly one "<name>:press" event when isPressed is
    true and no event when it is false. *)
Theorem processButtons_first config data b st :
  NoDup (button_names config) →
  b ∈ default [] (buttons config) →
  get st (button_name b) = VUndef →
  let isPressed :=
    bool_decide (JS.and_ff (data_at data (button_pin b)) = button_value b) in
  get (processButtons config data st).1 (button_name b) = VBool isPressed
  ∧ events_of (button_name b) (processButtons config data st).2
    = if isPressed then [mkEvent (button_name b +:+ ":press") []] else [].
Proof.
  intros Hnd Hb Hundef isPressed.
  destruct (processButtons_own config data b st Hnd Hb) as [Hget Hev].
  rewrite Hget, Hev, button_cb_first by done; simpl.
  by rewrite get_put by (by apply get_undef_plain in Hundef).
Qed.

Lemma processButtons_first_witness :
  get (processButtons sample [x00; x00; x00; x00; x01] fresh).1 "fire"
    = VBool true
  ∧ events_of "fire" (processButtons sample [x00; x00; x00; x00; x01] fresh).2
    = [mkEvent "fire:press" []].
Proof.
  assert (Hnd : NoDup (button_names sample)) by decide_by_compute.
  assert (Hb : mkButtonConfig 1 4 "fire" ∈ default [] (buttons sample))
    by decide_by_compute.
  exact (processButtons_first sample [x00; x00; x00; x00; x01]
           (mkButtonConfig 1 4 "fire") fresh Hnd Hb eq_refl).
Defined.

(** X26.  Status state invariant.  For a definition whose status names
    are distinct, after any frame has been processed from any state,
    every configured status not called "__proto__" reads as the label
    resolved from that frame's byte: a label exactly when some configured
    entry has value = (frame[pin] & 0xFF), and then the label of such an
    entry; when no entry matches it reads as the unset marker, whatever
    label was stored before. *)
Theorem status_entry_fresh config data s st :
  NoDup (status_names config) →
  s ∈ default [] (status config) →
  status_name s ≠ "__proto__" →
  let byte := JS.and_ff (data_at data (status_pin s)) in
  let stored := get (onControllerFrame config data st).1 (status_name s) in
  stored = label_val (resolve_label (states s) byte)
  ∧ ((∃ l, stored = VStr l) ↔ ∃ e, e ∈ states s ∧ value e = byte)
  ∧ (∀ l, stored = VStr l →
       ∃ e, e ∈ states s ∧ value e = byte ∧ state e = l)
  ∧ ((∀ e, e ∈ states s → value e ≠ byte) → stored = VUndef).
Proof.
  intros Hnd Hs Hk byte stored.
  assert (Hstored : stored = label_val (resolve_label (states s) byte)).
  { subst stored. rewrite onControllerFrame_passes; simpl.
    destruct (processStatus_own config data s
                (processButtons config data
                   (processJoysticks config data st).1).1 Hnd Hs) as [Hget _].
    by rewrite Hget, status_cb_stored. }
  split; [done |]. rewrite Hstored. split; [| split].
  - rewrite <- resolve_label_Some. split.
    + intros [l Hl]. destruct (resolve_label (states s) byte); [done |].
      discriminate.
    + intros [l ->]. by exists l.
  - intros l Hl. rewrite resolve_label_find in Hl.
    destruct (list_find _ (states s)) as [[i e]|] eqn:Hfind; [| discriminate].
    apply list_find_Some in Hfind as (Hi & He & _).
    exists e. split; [| split; [done | by injection Hl]].
    apply list_elem_of_lookup. by exists i.
  - intros Hnone. apply resolve_label_None in Hnone. by rewrite Hnone.
Qed.

Lemma status_entry_fresh_witness :
  get (onControllerFrame sample [x00; x00; x00; x00; x00; x07]
         (put fresh "mode" (VStr "on"))).1 "mode" = VUndef.
Proof.
  assert (Hnd : NoDup (status_names sample)) by decide_by_compute.
  pose (s := mkStatusConfig 5 "mode"
               [mkStatusState 0 "off"; mkStatusState 1 "on";
                mkStatusState 1 "always"]).
  assert (Hs : s ∈ default [] (status sample)) by decide_by_compute.
  assert (Hk : status_name s ≠ "__proto__") by discriminate.
  refine (proj2 (proj2 (proj2
            (status_entry_fresh sample [x00; x00; x00; x00; x00; x07] s
               (put fresh "mode" (VStr "on")) Hnd Hs Hk))) _).
  intros e He. apply (bool_decide_unpack _).
  revert e He. apply Forall_forall.
  repeat (constructor; [vm_compute; exact I |]). constructor.
Defined.

(** X27.  A status with an empty states list never reports a change.
    For a definition whose names are distinct and which has no stick
    called "__proto__", and any of its statuses with no states that
    reads as unset (as at construction, for a name that a fresh object
    does not answer to), no frame of any sequence emits an event named
    "<name>:change", nor any other event of that status; the label
    resolved on every frame is the unset marker and the status still
    reads as unset after the run. *)
Theorem status_without_states_silent config s frames st :
  names_distinct config →
  "__proto__" ∉ stick_names config →
  s ∈ default [] (status config) →
  states s = [] →
  get st (status_name s) = VUndef →
  (∀ evs e, evs ∈ (run config frames st).2 → e ∈ evs →
     ev_name e ≠ status_name s +:+ ":change")
  ∧ Forall (λ evs, events_of (status_name s) evs = [])
      (run config frames st).2
  ∧ get (run config frames st).1 (status_name s) = VUndef
  ∧ (∀ byte, resolve_label (states s) byte = None).
Proof.
  intros Hnd Hproto Hs Hempty Hundef.
  assert (Hres : ∀ byte, resolve_label (states s) byte = None)
    by (intros byte; by rewrite Hempty).
  assert (Hrun :
    Forall (λ evs, events_of (status_name s) evs = []) (run config frames st).2
    ∧ get (run config frames st).1 (status_name s) = VUndef).
  { revert st Hundef. induction frames as [|data frames IH]; intros st Hundef.
    - by split; [constructor |].
    - simpl.
      destruct (onControllerFrame_status config data s st Hnd Hs) as [Hg He];
        [by left |].
      rewrite status_cb_stored, Hres in Hg
        by (by apply get_undef_plain in Hundef).
      rewrite status_cb_first, Hres in He by done.
      destruct (onControllerFrame config data st) as [st1 ev]; simpl in Hg, He.
      destruct (IH st1 Hg) as [IHev IHget].
      destruct (run config frames st1) as [st2 evs]; simpl in *.
      split; [by constructor | done]. }
  destruct Hrun as [Hall Hget]. split_and!; try done.
  intros evs e Hevs He Hname.
  rewrite Forall_forall in Hall. specialize (Hall evs Hevs).
  assert (Hin : e ∈ events_of (status_name s) evs).
  { apply list_elem_of_filter. split; [| done].
    rewrite Hname. apply event_names_intro. in_suffixes. }
  rewrite Hall in Hin. by apply elem_of_nil in Hin.
Qed.

Lemma status_without_states_silent_witness :
  Forall (λ evs, events_of "battery" evs = [])
    (run sample [[x00; x00; x00; x00; x00; x07];
                 [x01; x02; x03; x04; x05; x06]; []] fresh).2.
Proof.
  assert (Hnd : names_distinct sample) by decide_by_compute.
  assert (Hproto : "__proto__" ∉ stick_names sample) by decide_by_compute.
  assert (Hs : mkStatusConfig 5 "battery" [] ∈ default [] (status sample))
    by decide_by_compute.
  exact (proj1 (proj2
           (status_without_states_silent sample (mkStatusConfig 5 "battery" [])
              [[x00; x00; x00; x00; x00; x07];
               [x01; x02; x03; x04; x05; x06]; []] fresh
              Hnd Hproto Hs eq_refl eq_refl))).
Defined.

(** ** Independence of the three sub-passes *)

Section Independence.

Variables (config : IGamepadDefinition) (data : Buffer).

Lemma processJoysticks_local st1 st2 :
  "__proto__" ∉ stick_names config →
  (∀ k, k ∈ stick_names config → get st1 k = get st2 k) →
  (processJoysticks config data st1).2 = (processJoysticks config data st2).2
  ∧ ∀ k, k ∈ stick_names config →
      get (processJoysticks config data st1).1 k
      = get (processJoysticks config data st2).1 k.
Proof.
  intros Hno Hagree. rewrite !processJoysticks_forEach.
  apply (forEach_local stick_name (stick_cb data)
           (λ s, stick_name s ≠ "__proto__") (stick_cb_own data)
           (stick_cb_proto data) (stick_cb_local data));
    [by apply sticks_quiet |].
  intros a Ha. apply Hagree. by apply list_elem_of_fmap_2.
Qed.

Lemma processButtons_local st1 st2 :
  (∀ k, k ∈ button_names config → get st1 k = get st2 k) →
  (processButtons config data st1).2 = (processButtons config data st2).2
  ∧ ∀ k, k ∈ button_names config →
      get (processButtons config data st1).1 k
      = get (processButtons config data st2).1 k.
Proof.
  intros Hagree. rewrite !processButtons_forEach.
  apply (forEach_local button_name (button_cb data) (λ _, True)
           (button_cb_own data) (λ b st _, button_cb_proto data b st)
           (button_cb_local data)); [apply all_quiet |].
  intros a Ha. apply Hagree. by apply list_elem_of_fmap_2.
Qed.

Lemma processStatus_local st1 st2 :
  (∀ k, k ∈ status_names config → get st1 k = get st2 k) →
  (processStatus config data st1).2 = (processStatus config data st2).2
  ∧ ∀ k, k ∈ status_names config →
      get (processStatus config data st1).1 k
      = get (processStatus config data st2).1 k.
Proof.
  intros Hagree. rewrite !processStatus_forEach.
  apply (forEach_local status_name (status_cb data) (λ _, True)
           (status_cb_own data) (λ s st _, status_cb_proto data s st)
           (status_cb_local data)); [apply all_quiet |].
  intros a Ha. apply Hagree. by apply list_elem_of_fmap_2.
Qed.

End Independence.

(** X28.  Sub-pass independence.  For a definition whose field names are
    pairwise distinct and which has no stick called "__proto__", any
    state and any frame:
    - each sub-pass leaves every name that is not a field of its own
      category reading as it did;
    - the events of a sub-pass are determined by its category's part of
      the definition and by what the fields of that category read as
      before the pass;
    - hence, within a frame, each sub-pass emits the events and leaves
      its fields reading as it would on the state the frame started
      from: the other two sub-passes do not affect it. *)
Theorem sub_passes_independent config data st :
  names_distinct config →
  "__proto__" ∉ stick_names config →
  ((∀ k, k ∉ stick_names config →
      get (processJoysticks config data st).1 k = get st k)
   ∧ (∀ k, k ∉ button_names config →
      get (processButtons config data st).1 k = get st k)
   ∧ (∀ k, k ∉ status_names config →
      get (processStatus config data st).1 k = get st k))
  ∧ ((∀ config2 st2, joysticks config2 = joysticks config →
        (∀ k, k ∈ stick_names config → get st2 k = get st k) →
        (processJoysticks config2 data st2).2
        = (processJoysticks config data st).2)
     ∧ (∀ config2 st2, buttons config2 = buttons config →
        (∀ k, k ∈ button_names config → get st2 k = get st k) →
        (processButtons config2 data st2).2
        = (processButtons config data st).2)
     ∧ (∀ config2 st2, status config2 = status config →
        (∀ k, k ∈ status_names config → get st2 k = get st k) →
        (processStatus config2 data st2).2
        = (processStatus config data st).2))
  ∧ (onControllerFrame config data st).2
    = (processJoysticks config data st).2
      ++ (processButtons config data st).2
      ++ (processStatus config data st).2
  ∧ (∀ k, k ∈ stick_names config →
       get (onControllerFrame config data st).1 k
       = get (processJoysticks config data st).1 k)
  ∧ (∀ k, k ∈ button_names config →
       get (onControllerFrame config data st).1 k
       = get (processButtons config data st).1 k)
  ∧ (∀ k, k ∈ status_names config →
       get (onControllerFrame config data st).1 k
       = get (processStatus config data st).1 k).
Proof.
  intros Hnd Hno.
  destruct (names_distinct_inv config Hnd)
    as (_ & _ & _ & Hstick & Hbutton & Hstatus).
  split; [| split].
  - split_and!; intros k Hk.
    + apply processJoysticks_get_foreign; [done | by left].
    + by apply processButtons_foreign.
    + by apply processStatus_foreign.
  - split_and!; intros config2 st2 Hcfg Hagree.
    + rewrite (processJoysticks_forEach config2), Hcfg,
        <- processJoysticks_forEach.
      by apply processJoysticks_local.
    + rewrite (processButtons_forEach config2), Hcfg,
        <- processButtons_forEach.
      by apply processButtons_local.
    + rewrite (processStatus_forEach config2), Hcfg,
        <- processStatus_forEach.
      by apply processStatus_local.
  - rewrite onControllerFrame_passes; simpl.
    set (st1 := (processJoysticks config data st).1).
    set (st2 := (processButtons config data st1).1).
    assert (H1 : ∀ k, k ∈ button_names config → get st1 k = get st k).
    { intros k Hk. unfold st1.
      apply processJoysticks_get_foreign; [by apply Hbutton | by left]. }
    destruct (processButtons_local config data st1 st H1) as [Hev2 Hget2].
    assert (H2 : ∀ k, k ∈ status_names config → get st2 k = get st k).
    { intros k Hk. unfold st2.
      rewrite (proj1 (processButtons_foreign config data st1 k
                        (proj2 (Hstatus k Hk)))).
      unfold st1.
      apply processJoysticks_get_foreign;
        [apply (proj1 (Hstatus k Hk)) | by left]. }
    destruct (processStatus_local config data st2 st H2) as [Hev3 Hget3].
    split; [by rewrite Hev2, Hev3 |]. split_and!; intros k Hk.
    + rewrite (proj1 (processStatus_foreign config data st2 k
                        (proj2 (Hstick k Hk)))).
      unfold st2.
      apply (proj1 (processButtons_foreign config data st1 k
                      (proj1 (Hstick k Hk)))).
    + rewrite (proj1 (processStatus_foreign config data st2 k
                        (proj2 (Hbutton k Hk)))).
      by apply Hget2.
    + by apply Hget3.
Qed.

Lemma sub_passes_independent_witness :
  (onControllerFrame sample [x01; x02; x0a; x14; x01; x01] fresh).2
  = (processJoysticks sample [x01; x02; x0a; x14; x01; x01] fresh).2
    ++ (processButtons sample [x01; x02; x0a; x14; x01; x01] fresh).2
    ++ (processStatus sample [x01; x02; x0a; x14; x01; x01] fresh).2.
Proof.
  assert (Hnd : names_distinct sample) by decide_by_compute.
  assert (Hno : "__proto__" ∉ stick_names sample) by decide_by_compute.
  exact (proj1 (proj2 (proj2
           (sub_passes_independent sample [x01; x02; x0a; x14; x01; x01] fresh
              Hnd Hno)))).
Defined.
